(** * AgoraLearn-UI: the chat page ([src/app/chat/page.tsx])

  A shallow embedding of the chat page component: the math-span renderer
  [renderMathInline], the upload, voice and query handlers of [ChatPage],
  and the conversation identifier kept in local storage.

  JavaScript strings are sequences of UTF-16 code units; they are modelled
  as lists of code units so that [trim], [slice] and the regular expression
  of the renderer work on the same positions as in the source. *)

From Stdlib Require Import List Bool Arith NArith ZArith Lia.
From Stdlib Require String Ascii.
Import String.StringSyntax.
Delimit Scope string_scope with string.
From Stdlib Require Import Numbers.DecimalString.
Import ListNotations.

Set Implicit Arguments.

(* ================================================================= *)
(** ** Strings *)

Module JsString.

Definition code_unit := N.
Definition jsstring := list code_unit.

(** An ASCII literal as a JavaScript string. *)
Definition js (s : String.string) : jsstring :=
  map Ascii.N_of_ascii (String.list_ascii_of_string s).
Arguments js s%_string.

(** [a === b] on strings. *)
Fixpoint eqb (a b : jsstring) : bool :=
  match a, b with
  | [], [] => true
  | x :: a', y :: b' => (x =? y)%N && eqb a' b'
  | _, _ => false
  end.

(** [content.slice(a, b)] for [0 <= a <= b]; [content.slice(a)]. *)
Definition slice (s : jsstring) (a b : nat) : jsstring :=
  firstn (b - a) (skipn a s).
Definition slice_from (s : jsstring) (a : nat) : jsstring := skipn a s.

(** ECMAScript WhiteSpace and LineTerminator code points, the ones
    [String.prototype.trim] removes. *)
Definition is_white_space (c : code_unit) : bool :=
  ((9 <=? c) && (c <=? 13) || (c =? 32) || (c =? 160) || (c =? 5760)
   || (8192 <=? c) && (c <=? 8202) || (c =? 8232) || (c =? 8233)
   || (c =? 8239) || (c =? 8287) || (c =? 12288) || (c =? 65279))%N.

Fixpoint trim_start (s : jsstring) : jsstring :=
  match s with
  | c :: rest => if is_white_space c then trim_start rest else s
  | [] => []
  end.

Definition trim (s : jsstring) : jsstring :=
  rev (trim_start (rev (trim_start s))).

(** Decimal rendering of a non-negative integer, as [String(n)] and
    string concatenation give it. *)
Definition of_nat (n : nat) : jsstring :=
  js (NilZero.string_of_uint (Nat.to_uint n)).

End JsString.
Import JsString.

(* ================================================================= *)
(** ** The math-span renderer *)

Module MathSpan.

Definition dollar : code_unit := 36%N.
Definition is_dollar (c : code_unit) : bool := (c =? dollar)%N.

(** Keys of the produced elements: [text-i], [block-i], [inline-i] and
    [text-end]. *)
Inductive Key :=
| key_text (mathIndex : nat)
| key_block (mathIndex : nat)
| key_inline (mathIndex : nat)
| key_text_end.

Inductive ReactNode :=
| span (key : Key) (children : jsstring)
| BlockMath (key : Key) (math : jsstring)
| InlineMath (key : Key) (math : jsstring).

(** The text a span carries, whatever its type tag. *)
Definition node_text (e : ReactNode) : jsstring :=
  match e with
  | span _ t => t
  | BlockMath _ m => m
  | InlineMath _ m => m
  end.

Definition is_text_span (e : ReactNode) : bool :=
  match e with span _ _ => true | _ => false end.

(** *** The regular expression [/\$\$(.*?)\$\$|\$(.*?)\$/gs] *)

(** Offset of the first [$$] in [w]: where the lazy [(.*?)] of the first
    alternative stops.  With the [s] flag the dot matches every code unit. *)
Definition head_is_dollar (w : jsstring) : bool :=
  match w with
  | b :: _ => is_dollar b
  | [] => false
  end.

Fixpoint find_double (w : jsstring) : option nat :=
  match w with
  | a :: t =>
      if is_dollar a && head_is_dollar t then Some 0
      else option_map S (find_double t)
  | [] => None
  end.

(** Offset of the first [$] in [w]: where the lazy [(.*?)] of the second
    alternative stops. *)
Fixpoint find_single (w : jsstring) : option nat :=
  match w with
  | a :: t => if is_dollar a then Some 0 else option_map S (find_single t)
  | [] => None
  end.

(** A successful match anchored at some position: the matched text and
    the two capture groups ([None] is JavaScript's [undefined]). *)
Record Anchored := {
  whole : jsstring;
  group1 : option jsstring;
  group2 : option jsstring
}.

Definition alt_block (w : jsstring) : option Anchored :=
  match w with
  | a :: b :: rest =>
      if is_dollar a && is_dollar b then
        match find_double rest with
        | Some k => Some {| whole := firstn (k + 4) w;
                            group1 := Some (firstn k rest);
                            group2 := None |}
        | None => None
        end
      else None
  | _ => None
  end.

Definition alt_inline (w : jsstring) : option Anchored :=
  match w with
  | a :: rest =>
      if is_dollar a then
        match find_single rest with
        | Some k => Some {| whole := firstn (k + 2) w;
                            group1 := None;
                            group2 := Some (firstn k rest) |}
        | None => None
        end
      else None
  | [] => None
  end.

(** Alternatives are tried left to right at one position. *)
Definition match_at (w : jsstring) : option Anchored :=
  match alt_block w with
  | Some m => Some m
  | None => alt_inline w
  end.

Record RegExpExecArray := {
  index : nat;
  groups : Anchored
}.

(** Leftmost position at or after [i] where the expression matches;
    [w] is the input from position [i] on. *)
Fixpoint search (w : jsstring) (i : nat) : option RegExpExecArray :=
  match match_at w with
  | Some m => Some {| index := i; groups := m |}
  | None =>
      match w with
      | _ :: rest => search rest (S i)
      | [] => None
      end
  end.

(** [regex.exec(content)] with [regex.lastIndex = lastIndex]. *)
Definition exec (content : jsstring) (lastIndex : nat)
  : option RegExpExecArray :=
  search (skipn lastIndex content) lastIndex.

(** [regex.lastIndex] after a successful [exec]. *)
Definition end_index (m : RegExpExecArray) : nat :=
  index m + length (whole (groups m)).

(** Truthiness of a capture group: defined and not empty. *)
Definition truthy_group (g : option jsstring) : option jsstring :=
  match g with
  | Some (c :: t) => Some (c :: t)
  | _ => None
  end.

(** *** [renderMathInline] *)

(** One pass through the body of the [while] loop, for the match [m]. *)
Definition loop_body (content : jsstring) (lastIndex mathIndex : nat)
    (elements : list ReactNode) (m : RegExpExecArray) : list ReactNode :=
  let elements1 :=
    if lastIndex <? index m
    then elements ++ [span (key_text mathIndex)
                        (slice content lastIndex (index m))]
    else elements in
  match truthy_group (group1 (groups m)) with
  | Some g1 => elements1 ++ [BlockMath (key_block mathIndex) g1]
  | None =>
      match truthy_group (group2 (groups m)) with
      | Some g2 => elements1 ++ [InlineMath (key_inline mathIndex) g2]
      | None => elements1
      end
  end.

(** The [while] loop, run at most [fuel] times; [None] when the fuel runs
    out before [exec] answers [null]. *)
Fixpoint scan (fuel : nat) (content : jsstring) (lastIndex mathIndex : nat)
    (elements : list ReactNode) : option (list ReactNode * nat) :=
  match exec content lastIndex with
  | None => Some (elements, lastIndex)
  | Some m =>
      match fuel with
      | O => None
      | S fuel' =>
          scan fuel' content (end_index m) (S mathIndex)
            (loop_body content lastIndex mathIndex elements m)
      end
  end.

Definition finish (content : jsstring) (r : list ReactNode * nat)
  : list ReactNode :=
  let (elements, lastIndex) := r in
  if lastIndex <? length content
  then elements ++ [span key_text_end (slice_from content lastIndex)]
  else elements.

(** Every match is at least two code units long, so the loop body runs at
    most [length content / 2] times; [length content] iterations are
    allowed here and [renderMathInline_total] shows they are enough. *)
Definition renderMathInline (content : jsstring)
  : option (list ReactNode) :=
  option_map (finish content) (scan (length content) content 0 0 []).

(** Concatenation of the produced spans' text, type tags ignored. *)
Definition rendered_text (elements : list ReactNode) : jsstring :=
  concat (map node_text elements).

End MathSpan.

(* ================================================================= *)
(** ** JSON values and the JavaScript operators applied to them *)

Module Json.

(** A value produced by [JSON.parse] (or by [res.json()]).  A number is
    kept as the text [String] gives for it; the fields of an object are
    listed once each. *)
#[local] Set Warnings "-register-all".
Inductive json :=
| JNull
| JBool (b : bool)
| JNum (repr : jsstring)
| JStr (s : jsstring)
| JArr (items : list json)
| JObj (fields : list (jsstring * json)).

(** A JavaScript value here is a JSON value or [undefined] ([None]). *)
Definition value := option json.
Definition undefined : value := None.

Fixpoint lookup (key : jsstring) (fields : list (jsstring * json)) : value :=
  match fields with
  | [] => None
  | (k, v) :: rest => if eqb k key then Some v else lookup key rest
  end.

(** [v?.key], for the property names the page reads ([file], [id],
    [docId], [name], [answer], [assistantText], [question], [transcript],
    [message]): only an object can have one of them. *)
Definition get (v : value) (key : jsstring) : value :=
  match v with
  | Some (JObj fields) => lookup key fields
  | _ => None
  end.

Definition nullish (v : value) : bool :=
  match v with
  | None | Some JNull => true
  | _ => false
  end.

(** [a ?? b] *)
Definition coalesce (a b : value) : value := if nullish a then b else a.

(** [a ?? d] when [d] is not [undefined]. *)
Definition coalesce_with (a : value) (d : json) : json :=
  match a with
  | Some v => if nullish a then d else v
  | None => d
  end.

(** Truthiness: what [if (v)] and [!v] test. *)
Definition truthy (v : value) : bool :=
  match v with
  | None | Some JNull => false
  | Some (JBool b) => b
  | Some (JNum repr) => negb (eqb repr (js "0"))
  | Some (JStr s) => match s with [] => false | _ => true end
  | Some (JArr _) | Some (JObj _) => true
  end.

(** [typeof v === "string"] *)
Definition is_string (v : value) : bool :=
  match v with
  | Some (JStr _) => true
  | _ => false
  end.

(** [String(v)]; [None] when it throws a [TypeError].  A parsed object
    that has a key [toString] of its own shadows the method of
    [Object.prototype] with a value that cannot be called, and the
    [valueOf] that is tried next gives no primitive: the conversion
    throws.  Any other object gives [[object Object]].  An array joins
    the conversions of its elements with commas, [null] counting as the
    empty string, and throws when one of them does. *)
Fixpoint to_String (v : json) : option jsstring :=
  match v with
  | JNull => Some (js "null")
  | JBool true => Some (js "true")
  | JBool false => Some (js "false")
  | JNum repr => Some repr
  | JStr s => Some s
  | JArr items =>
      (fix join (l : list json) : option jsstring :=
         match l with
         | [] => Some []
         | x :: rest =>
             match match x with JNull => Some [] | _ => to_String x end with
             | None => None
             | Some sx =>
                 match rest with
                 | [] => Some sx
                 | _ =>
                     match join rest with
                     | Some sr => Some (sx ++ js "," ++ sr)
                     | None => None
                     end
                 end
             end
         end) items
  | JObj fields =>
      match lookup (js "toString") fields with
      | Some _ => None
      | None => Some (js "[object Object]")
      end
  end.

End Json.
Import Json.

(* ================================================================= *)
(** ** The chat page component *)

Module ChatPage.

Inductive Role := user | assistant.

Record Message := {
  id : jsstring;
  role : Role;
  content : jsstring;
  createdAt : option jsstring
}.

(** A [File] picked by the user; only its name is read. *)
Record File := { file_name : jsstring }.

(** The document stored by the server: [{ id, name }] as [handleUpload]
    builds it from the response. *)
Record UploadedDoc := { doc_id : json; doc_name : json }.

Record Position := { top : Z; left : Z }.

Record Blob := { size : nat }.

(** A thrown value, read through [err?.message].  What is thrown inside
    the [try] blocks of the page is an error object ([new Error(...)], the
    [TypeError] of [fetch] or of [String], the [SyntaxError] of [json()]),
    whose message is a string; [None] is a value without one. *)
Record Thrown := { message : option jsstring }.
Definition Error (msg : jsstring) : Thrown := {| message := Some msg |}.

(** [String(err?.message ?? fallback)] *)
Definition message_or (err : Thrown) (fallback : jsstring) : jsstring :=
  match message err with
  | Some m => m
  | None => fallback
  end.

(** The [TypeError] thrown by [String]; engines word its message
    differently, the wording taken here is V8's. *)
Definition conversion_error : Thrown :=
  Error (js "Cannot convert object to primitive value").

(** What [Math.round(loaded / total * 100)] can give: an integer, or
    [NaN] or [Infinity] when [total] is zero. *)
Inductive Rounded := rounded (n : N) | rounded_NaN | rounded_Infinity.

(** [makeId(prefix)]: the random part, [crypto.randomUUID()] or the
    time-and-random fallback, is an input. *)
Definition makeId (prefix random : jsstring) : jsstring := prefix ++ random.

(** The values held by the [useState] hooks of [ChatPage]. *)
Record State := {
  messages : list Message;
  inputValue : jsstring;
  isLoading : bool;
  uploadedFile : option File;
  uploadedDoc : option UploadedDoc;
  isUploading : bool;
  uploadProgress : option Rounded;
  isRecording : bool;
  showUploadModal : bool;
  isDragging : bool;
  showSuccess : bool;
  error : option jsstring;
  referencePopup : bool;
  referenceText : jsstring;
  popupPosition : option Position;
  selectedText : option jsstring;
  conversationId : option jsstring
}.

(** A call of one of the state setters.  [setMessages] is only ever called
    with the appending updater [(p) => [...p, m]]; the other setters are
    called with a value. *)
Inductive Update :=
| setMessages_push (m : Message)
| setInputValue (v : jsstring)
| setIsLoading (v : bool)
| setUploadedFile (v : option File)
| setUploadedDoc (v : option UploadedDoc)
| setIsUploading (v : bool)
| setUploadProgress (v : option Rounded)
| setIsRecording (v : bool)
| setShowUploadModal (v : bool)
| setIsDragging (v : bool)
| setShowSuccess (v : bool)
| setError (v : option jsstring)
| setReferencePopup (v : bool)
| setReferenceText (v : jsstring)
| setPopupPosition (v : option Position)
| setSelectedText (v : option jsstring)
| setConversationId (v : option jsstring).

Definition apply_update (u : Update) (s : State) : State :=
  match u with
  | setMessages_push m =>
      {| messages := messages s ++ [m]; inputValue := inputValue s;
         isLoading := isLoading s; uploadedFile := uploadedFile s;
         uploadedDoc := uploadedDoc s; isUploading := isUploading s;
         uploadProgress := uploadProgress s; isRecording := isRecording s;
         showUploadModal := showUploadModal s; isDragging := isDragging s;
         showSuccess := showSuccess s; error := error s;
         referencePopup := referencePopup s;
         referenceText := referenceText s; popupPosition := popupPosition s;
         selectedText := selectedText s;
         conversationId := conversationId s |}
  | setInputValue v =>
      {| messages := messages s; inputValue := v; isLoading := isLoading s;
         uploadedFile := uploadedFile s; uploadedDoc := uploadedDoc s;
         isUploading := isUploading s; uploadProgress := uploadProgress s;
         isRecording := isRecording s; showUploadModal := showUploadModal s;
         isDragging := isDragging s; showSuccess := showSuccess s;
         error := error s; referencePopup := referencePopup s;
         referenceText := referenceText s; popupPosition := popupPosition s;
         selectedText := selectedText s;
         conversationId := conversationId s |}
  | setIsLoading v =>
      {| messages := messages s; inputValue := inputValue s; isLoading := v;
         uploadedFile := uploadedFile s; uploadedDoc := uploadedDoc s;
         isUploading := isUploading s; uploadProgress := uploadProgress s;
         isRecording := isRecording s; showUploadModal := showUploadModal s;
         isDragging := isDragging s; showSuccess := showSuccess s;
         error := error s; referencePopup := referencePopup s;
         referenceText := referenceText s; popupPosition := popupPosition s;
         selectedText := selectedText s;
         conversationId := conversationId s |}
  | setUploadedFile v =>
      {| messages := messages s; inputValue := inputValue s;
         isLoading := isLoading s; uploadedFile := v;
         uploadedDoc := uploadedDoc s; isUploading := isUploading s;
         uploadProgress := uploadProgress s; isRecording := isRecording s;
         showUploadModal := showUploadModal s; isDragging := isDragging s;
         showSuccess := showSuccess s; error := error s;
         referencePopup := referencePopup s;
         referenceText := referenceText s; popupPosition := popupPosition s;
         selectedText := selectedText s;
         conversationId := conversationId s |}
  | setUploadedDoc v =>
      {| messages := messages s; inputValue := inputValue s;
         isLoading := isLoading s; uploadedFile := uploadedFile s;
         uploadedDoc := v; isUploading := isUploading s;
         uploadProgress := uploadProgress s; isRecording := isRecording s;
         showUploadModal := showUploadModal s; isDragging := isDragging s;
         showSuccess := showSuccess s; error := error s;
         referencePopup := referencePopup s;
         referenceText := referenceText s; popupPosition := popupPosition s;
         selectedText := selectedText s;
         conversationId := conversationId s |}
  | setIsUploading v =>
      {| messages := messages s; inputValue := inputValue s;
         isLoading := isLoading s; uploadedFile := uploadedFile s;
         uploadedDoc := uploadedDoc s; isUploading := v;
         uploadProgress := uploadProgress s; isRecording := isRecording s;
         showUploadModal := showUploadModal s; isDragging := isDragging s;
         showSuccess := showSuccess s; error := error s;
         referencePopup := referencePopup s;
         referenceText := referenceText s; popupPosition := popupPosition s;
         selectedText := selectedText s;
         conversationId := conversationId s |}
  | setUploadProgress v =>
      {| messages := messages s; inputValue := inputValue s;
         isLoading := isLoading s; uploadedFile := uploadedFile s;
         uploadedDoc := uploadedDoc s; isUploading := isUploading s;
         uploadProgress := v; isRecording := isRecording s;
         showUploadModal := showUploadModal s; isDragging := isDragging s;
         showSuccess := showSuccess s; error := error s;
         referencePopup := referencePopup s;
         referenceText := referenceText s; popupPosition := popupPosition s;
         selectedText := selectedText s;
         conversationId := conversationId s |}
  | setIsRecording v =>
      {| messages := messages s; inputValue := inputValue s;
         isLoading := isLoading s; uploadedFile := uploadedFile s;
         uploadedDoc := uploadedDoc s; isUploading := isUploading s;
         uploadProgress := uploadProgress s; isRecording := v;
         showUploadModal := showUploadModal s; isDragging := isDragging s;
         showSuccess := showSuccess s; error := error s;
         referencePopup := referencePopup s;
         referenceText := referenceText s; popupPosition := popupPosition s;
         selectedText := selectedText s;
         conversationId := conversationId s |}
  | setShowUploadModal v =>
      {| messages := messages s; inputValue := inputValue s;
         isLoading := isLoading s; uploadedFile := uploadedFile s;
         uploadedDoc := uploadedDoc s; isUploading := isUploading s;
         uploadProgress := uploadProgress s; isRecording := isRecording s;
         showUploadModal := v; isDragging := isDragging s;
         showSuccess := showSuccess s; error := error s;
         referencePopup := referencePopup s;
         referenceText := referenceText s; popupPosition := popupPosition s;
         selectedText := selectedText s;
         conversationId := conversationId s |}
  | setIsDragging v =>
      {| messages := messages s; inputValue := inputValue s;
         isLoading := isLoading s; uploadedFile := uploadedFile s;
         uploadedDoc := uploadedDoc s; isUploading := isUploading s;
         uploadProgress := uploadProgress s; isRecording := isRecording s;
         showUploadModal := showUploadModal s; isDragging := v;
         showSuccess := showSuccess s; error := error s;
         referencePopup := referencePopup s;
         referenceText := referenceText s; popupPosition := popupPosition s;
         selectedText := selectedText s;
         conversationId := conversationId s |}
  | setShowSuccess v =>
      {| messages := messages s; inputValue := inputValue s;
         isLoading := isLoading s; uploadedFile := uploadedFile s;
         uploadedDoc := uploadedDoc s; isUploading := isUploading s;
         uploadProgress := uploadProgress s; isRecording := isRecording s;
         showUploadModal := showUploadModal s; isDragging := isDragging s;
         showSuccess := v; error := error s;
         referencePopup := referencePopup s;
         referenceText := referenceText s; popupPosition := popupPosition s;
         selectedText := selectedText s;
         conversationId := conversationId s |}
  | setError v =>
      {| messages := messages s; inputValue := inputValue s;
         isLoading := isLoading s; uploadedFile := uploadedFile s;
         uploadedDoc := uploadedDoc s; isUploading := isUploading s;
         uploadProgress := uploadProgress s; isRecording := isRecording s;
         showUploadModal := showUploadModal s; isDragging := isDragging s;
         showSuccess := showSuccess s; error := v;
         referencePopup := referencePopup s;
         referenceText := referenceText s; popupPosition := popupPosition s;
         selectedText := selectedText s;
         conversationId := conversationId s |}
  | setReferencePopup v =>
      {| messages := messages s; inputValue := inputValue s;
         isLoading := isLoading s; uploadedFile := uploadedFile s;
         uploadedDoc := uploadedDoc s; isUploading := isUploading s;
         uploadProgress := uploadProgress s; isRecording := isRecording s;
         showUploadModal := showUploadModal s; isDragging := isDragging s;
         showSuccess := showSuccess s; error := error s; referencePopup := v;
         referenceText := referenceText s; popupPosition := popupPosition s;
         selectedText := selectedText s;
         conversationId := conversationId s |}
  | setReferenceText v =>
      {| messages := messages s; inputValue := inputValue s;
         isLoading := isLoading s; uploadedFile := uploadedFile s;
         uploadedDoc := uploadedDoc s; isUploading := isUploading s;
         uploadProgress := uploadProgress s; isRecording := isRecording s;
         showUploadModal := showUploadModal s; isDragging := isDragging s;
         showSuccess := showSuccess s; error := error s;
         referencePopup := referencePopup s; referenceText := v;
         popupPosition := popupPosition s; selectedText := selectedText s;
         conversationId := conversationId s |}
  | setPopupPosition v =>
      {| messages := messages s; inputValue := inputValue s;
         isLoading := isLoading s; uploadedFile := uploadedFile s;
         uploadedDoc := uploadedDoc s; isUploading := isUploading s;
         uploadProgress := uploadProgress s; isRecording := isRecording s;
         showUploadModal := showUploadModal s; isDragging := isDragging s;
         showSuccess := showSuccess s; error := error s;
         referencePopup := referencePopup s;
         referenceText := referenceText s; popupPosition := v;
         selectedText := selectedText s;
         conversationId := conversationId s |}
  | setSelectedText v =>
      {| messages := messages s; inputValue := inputValue s;
         isLoading := isLoading s; uploadedFile := uploadedFile s;
         uploadedDoc := uploadedDoc s; isUploading := isUploading s;
         uploadProgress := uploadProgress s; isRecording := isRecording s;
         showUploadModal := showUploadModal s; isDragging := isDragging s;
         showSuccess := showSuccess s; error := error s;
         referencePopup := referencePopup s;
         referenceText := referenceText s; popupPosition := popupPosition s;
         selectedText := v; conversationId := conversationId s |}
  | setConversationId v =>
      {| messages := messages s; inputValue := inputValue s;
         isLoading := isLoading s; uploadedFile := uploadedFile s;
         uploadedDoc := uploadedDoc s; isUploading := isUploading s;
         uploadProgress := uploadProgress s; isRecording := isRecording s;
         showUploadModal := showUploadModal s; isDragging := isDragging s;
         showSuccess := showSuccess s; error := error s;
         referencePopup := referencePopup s;
         referenceText := referenceText s; popupPosition := popupPosition s;
         selectedText := selectedText s; conversationId := v |}
  end.

(** *** The browser around the component *)

Definition conversation_key : jsstring := js "agoralearn:conversationId".

(** [localStorage], seen through the one key the page uses.  Reading or
    writing may throw; the page catches both. *)
Record Storage := {
  readable : bool;
  writable : bool;
  item : option jsstring
}.

(** [localStorage.getItem(conversation_key)] inside its [try]: [None] is
    the [catch] branch. *)
Definition getItem (ls : Storage) : option (option jsstring) :=
  if readable ls then Some (item ls) else None.

(** [localStorage.setItem(conversation_key, v)] inside its [try] with the
    empty [catch]. *)
Definition setItem (ls : Storage) (v : jsstring) : Storage :=
  if writable ls
  then {| readable := readable ls; writable := writable ls; item := Some v |}
  else ls.

(** The [state] of a [MediaRecorder]; the page never pauses one. *)
Inductive RecorderState := inactive | recording.

Inductive FormValue :=
| form_blob (b : Blob) (filename : jsstring)
| form_file (f : File) (filename : jsstring)
| form_text (v : jsstring).

Inductive Body :=
| json_body (payload : json)
| form_body (fields : list (jsstring * FormValue)).

(** The two timers of the page; the second closes over the recorder it
    was set for. *)
Inductive Timer := hide_success | stop_recorder (mr : nat).

(** The snapshot [exportConversation] serializes. *)
Record Export := {
  export_conversationId : option jsstring;
  export_messages : list Message;
  export_uploadedDoc : option UploadedDoc;
  exportedAt : jsstring
}.

(** Calls that leave the component. *)
Inductive Call :=
| fetch (url : jsstring) (body : Body)
| xhr_send (url : jsstring) (body : Body)
| localStorage_setItem (key v : jsstring)
| console_error
| setTimeout (callback : Timer) (ms : N)
| getUserMedia
| recorder_start (mr : nat)
| recorder_stop (mr : nat)
| download (filename : jsstring) (payload : Export).

Inductive Step :=
| Set_ (u : Update)
| Call_ (c : Call).

(** The component with its refs, the recorders created so far (a recorder
    is named by its place in the list), the local storage, and the setter
    and platform calls made so far, oldest first. *)
Record World := {
  state : State;
  mediaRecorderRef : option nat;
  recorders : list RecorderState;
  audioChunksRef : list Blob;
  localStorage : Storage;
  trace : list Step
}.

Definition Cmd := World -> World.
Definition skip : Cmd := fun w => w.
Definition seq (a b : Cmd) : Cmd := fun w => b (a w).

(** A command that depends on something read from a ref. *)
Definition reading (A : Type) (ref : World -> A) (k : A -> Cmd) : Cmd :=
  fun w => k (ref w) w.

Declare Scope cmd_scope.
Delimit Scope cmd_scope with cmd.
Bind Scope cmd_scope with Cmd.
Notation "a ;; b" := (seq a b)
  (at level 61, right associativity) : cmd_scope.
Local Open Scope cmd_scope.

Definition set (u : Update) : Cmd := fun w =>
  {| state := apply_update u (state w);
     mediaRecorderRef := mediaRecorderRef w;
     recorders := recorders w;
     audioChunksRef := audioChunksRef w;
     localStorage := localStorage w;
     trace := trace w ++ [Set_ u] |}.

Definition call (c : Call) : Cmd := fun w =>
  {| state := state w;
     mediaRecorderRef := mediaRecorderRef w;
     recorders := recorders w;
     audioChunksRef := audioChunksRef w;
     localStorage := localStorage w;
     trace := trace w ++ [Call_ c] |}.

Definition set_mediaRecorderRef (v : option nat) : Cmd := fun w =>
  {| state := state w;
     mediaRecorderRef := v;
     recorders := recorders w;
     audioChunksRef := audioChunksRef w;
     localStorage := localStorage w;
     trace := trace w |}.

Definition set_recorders (v : list RecorderState) : Cmd := fun w =>
  {| state := state w;
     mediaRecorderRef := mediaRecorderRef w;
     recorders := v;
     audioChunksRef := audioChunksRef w;
     localStorage := localStorage w;
     trace := trace w |}.

Fixpoint replace_nth (A : Type) (n : nat) (x : A) (l : list A) : list A :=
  match l, n with
  | [], _ => []
  | _ :: t, O => x :: t
  | h :: t, S n' => h :: replace_nth n' x t
  end.

(** [new MediaRecorder(stream)]: one more recorder, not yet started. *)
Definition new_recorder : Cmd :=
  reading recorders (fun rs => set_recorders (rs ++ [inactive])).

(** [mr.start()] *)
Definition start_recorder (mr : nat) : Cmd :=
  call (recorder_start mr) ;;
  reading recorders (fun rs => set_recorders (replace_nth mr recording rs)).

(** [mr.stop()]: the recorder is inactive afterwards; on a recorder that
    is inactive already the call throws and leaves it so. *)
Definition stop_recorder_now (mr : nat) : Cmd :=
  call (recorder_stop mr) ;;
  reading recorders (fun rs => set_recorders (replace_nth mr inactive rs)).

Definition set_audioChunksRef (v : list Blob) : Cmd := fun w =>
  {| state := state w;
     mediaRecorderRef := mediaRecorderRef w;
     recorders := recorders w;
     audioChunksRef := v;
     localStorage := localStorage w;
     trace := trace w |}.

Definition localStorage_set (v : jsstring) : Cmd := fun w =>
  {| state := state w;
     mediaRecorderRef := mediaRecorderRef w;
     recorders := recorders w;
     audioChunksRef := audioChunksRef w;
     localStorage := setItem (localStorage w) v;
     trace := trace w ++ [Call_ (localStorage_setItem conversation_key v)] |}.

(** *** Initial state and the conversation identifier *)

Definition welcome (now : jsstring) : Message :=
  {| id := js "welcome";
     role := assistant;
     content :=
       js "Hello! I'm here to help you with your documents. Ask me any questions.";
     createdAt := Some now |}.

(** The initial values given to [useState]; [now] is
    [new Date().toISOString()]. *)
Definition initial_state (ls : Storage) (now : jsstring) : State :=
  {| messages := [welcome now];
     inputValue := [];
     isLoading := false;
     uploadedFile := None;
     uploadedDoc := None;
     isUploading := false;
     uploadProgress := None;
     isRecording := false;
     showUploadModal := false;
     isDragging := false;
     showSuccess := false;
     error := None;
     referencePopup := false;
     referenceText := [];
     popupPosition := None;
     selectedText := None;
     conversationId :=
       match getItem ls with
       | Some v => v
       | None => None
       end |}.

Definition initial_world (ls : Storage) (now : jsstring) : World :=
  {| state := initial_state ls now;
     mediaRecorderRef := None;
     recorders := [];
     audioChunksRef := [];
     localStorage := ls;
     trace := [] |}.

(** [!s] for a string or [null]. *)
Definition blank (s : option jsstring) : bool :=
  match s with
  | Some (_ :: _) => false
  | _ => true
  end.

(** The effect on [conversationId]; [r] is the render it belongs to. *)
Definition conversationId_effect (r : State) (random : jsstring) : Cmd :=
  if blank (conversationId r) then
    let id := makeId (js "conv-") random in
    set (setConversationId (Some id)) ;;
    localStorage_set id
  else skip.

(** *** Helpers *)

Definition pushMessage (m : Message) : Cmd := set (setMessages_push m).

Definition handleFileSelect (file : File) : Cmd :=
  set (setUploadedFile (Some file)).

(** [files] is [e.currentTarget.files?.[0]]. *)
Definition handleFileInputChange (files : option File) : Cmd :=
  match files with
  | Some f => handleFileSelect f
  | None => skip
  end.

(** *** Upload *)

Definition upload_url : jsstring := js "http://localhost:3000/api/upload".

(** How the [XMLHttpRequest] ends: [onload] with a status and a response
    text ([parsed] is what [JSON.parse] makes of it, [None] when it throws),
    or [onerror]. *)
Inductive XhrOutcome :=
| xhr_load (status : nat) (responseText : jsstring) (parsed : option json)
| xhr_error.

(** The promise of [uploadWithProgress]: resolved with a value or rejected
    with an error. *)
Definition uploadWithProgress_settled (o : XhrOutcome) : Thrown + json :=
  match o with
  | xhr_load status responseText parsed =>
      if (200 <=? status) && (status <? 300) then
        match parsed with
        | Some data => inr data
        | None => inr (JStr responseText)
        end
      else inl (Error (js "Upload failed: " ++ of_nat status))
  | xhr_error => inl (Error (js "Upload network error"))
  end.

(** [data?.file?.id ?? data?.docId ?? data?.id] *)
Definition upload_id (data : json) : value :=
  coalesce (get (get (Some data) (js "file")) (js "id"))
    (coalesce (get (Some data) (js "docId")) (get (Some data) (js "id"))).

(** [data?.file?.name ?? uploadedFile.name] *)
Definition upload_name (data : json) (file : File) : json :=
  coalesce_with (get (get (Some data) (js "file")) (js "name"))
    (JStr (file_name file)).

(** [handleUpload] up to its [await]; [r] is the render the handler
    belongs to. *)
Definition handleUpload (r : State) : Cmd :=
  match uploadedFile r with
  | None => skip
  | Some file =>
      set (setIsUploading true) ;;
      set (setError None) ;;
      set (setUploadProgress (Some (rounded 0))) ;;
      call (xhr_send upload_url
              (form_body [(js "file", form_file file (file_name file))]))
  end.

(** [xhr.upload.onprogress] with a computable length; [pct] is the rounded
    percentage. *)
Definition upload_onprogress (pct : Rounded) : Cmd :=
  set (setUploadProgress (Some pct)).

Definition handleUpload_catch (err : Thrown) : Cmd :=
  call console_error ;;
  set (setError (Some (message_or err (js "Upload failed")))).

Definition handleUpload_finally : Cmd :=
  set (setIsUploading false) ;;
  set (setUploadProgress None).

(** [handleUpload] after its [await]; [file] is the [uploadedFile] of the
    render the handler belonged to. *)
Definition handleUpload_settled (file : File) (o : XhrOutcome) : Cmd :=
  match uploadWithProgress_settled o with
  | inr data =>
      let name := upload_name data file in
      match upload_id data with
      | Some id =>
          if truthy (Some id) then
            set (setUploadedDoc (Some {| doc_id := id; doc_name := name |})) ;;
            set (setUploadedFile None) ;;
            set (setShowSuccess true) ;;
            call (setTimeout hide_success 3500%N)
          else handleUpload_catch (Error (js "Upload response missing id"))
      | None => handleUpload_catch (Error (js "Upload response missing id"))
      end
  | inl err => handleUpload_catch err
  end ;;
  handleUpload_finally.

(** *** Query *)

Definition converse_url : jsstring := js "http://localhost:3000/api/converse".

(** The fallback text: [Sorry], an em dash (U+2014) between two spaces,
    [something went wrong.] *)
Definition fallback_text : jsstring :=
  js "Sorry " ++ [8212%N] ++ js " something went wrong.".

(** The [payload] object of [sendQuery]. *)
Definition converse_payload (r : State) (queryText : jsstring)
  : list (jsstring * json) :=
  [(js "query", JStr queryText)]
  ++ match uploadedDoc r with
     | Some d => [(js "docId", doc_id d)]
     | None => []
     end
  ++ (if blank (conversationId r) then []
      else match conversationId r with
           | Some c => [(js "conversationId", JStr c)]
           | None => []
           end).

(** [sendQuery] up to its [await fetch]; [r] is the render the function
    belongs to, [random] the random part of the message identifier and
    [now] the timestamp. *)
Definition sendQuery (r : State) (queryText random now : jsstring) : Cmd :=
  match trim queryText with
  | [] => skip
  | _ :: _ =>
      set (setIsLoading true) ;;
      set (setError None) ;;
      let userMsg := {| id := makeId (js "u-") random; role := user;
                        content := queryText; createdAt := Some now |} in
      pushMessage userMsg ;;
      let payload := converse_payload r queryText in
      call (fetch converse_url (json_body (JObj payload)))
  end.

(** How a [fetch] ends: the promise rejects, or a response arrives with a
    status and a body, of which [res.json()] makes a value or an error. *)
Inductive FetchOutcome :=
| fetch_rejected (err : Thrown)
| fetch_response (status : nat) (parsed : Thrown + json).

Definition ok (status : nat) : bool := (200 <=? status) && (status <=? 299).

(** [body?.answer ?? body?.assistantText ??
     (typeof body === "string" ? body : "")] *)
Definition converse_answer (body : json) : json :=
  coalesce_with (get (Some body) (js "answer"))
    (coalesce_with (get (Some body) (js "assistantText"))
       (if is_string (Some body) then body else JStr [])).

Definition sendQuery_catch (err : Thrown) (random : jsstring) : Cmd :=
  call console_error ;;
  pushMessage {| id := makeId (js "a-") random; role := assistant;
                 content := fallback_text; createdAt := None |} ;;
  set (setError (Some (message_or err (js "Error")))).

(** [sendQuery] from the settlement of [fetch] on.  The successful path
    awaits [res.json()] too; no state is touched between the two awaits. *)
Definition sendQuery_settled (o : FetchOutcome) (random : jsstring) : Cmd :=
  match o with
  | fetch_rejected err => sendQuery_catch err random
  | fetch_response status parsed =>
      if negb (ok status) then
        sendQuery_catch (Error (js "Server error " ++ of_nat status)) random
      else
        match parsed with
        | inr body =>
            match to_String (converse_answer body) with
            | Some text =>
                pushMessage {| id := makeId (js "a-") random;
                               role := assistant; content := text;
                               createdAt := None |}
            | None => sendQuery_catch conversion_error random
            end
        | inl err => sendQuery_catch err random
        end
  end ;;
  set (setIsLoading false).

(** [handleSendMessage] up to the [await] inside [sendQuery]. *)
Definition handleSendMessage (r : State) (random now : jsstring) : Cmd :=
  match trim (inputValue r) with
  | [] => skip
  | _ :: _ => sendQuery r (inputValue r) random now
  end.

(** [handleSendMessage] once [sendQuery] has settled. *)
Definition handleSendMessage_settled (o : FetchOutcome) (random : jsstring)
  : Cmd :=
  sendQuery_settled o random ;;
  set (setInputValue []).

(** *** Selection popup *)

(** [selection] is [window.getSelection()] as text, [None] when there is
    none; the numbers are those of the selection's rectangle and of the
    window's scroll offsets. *)
Definition handleMouseUp (selection : option jsstring)
    (rect_bottom rect_left scrollY scrollX : Z) : Cmd :=
  match selection with
  | None =>
      set (setPopupPosition None) ;; set (setSelectedText None)
  | Some text =>
      match trim text with
      | [] => set (setPopupPosition None) ;; set (setSelectedText None)
      | _ :: _ =>
          set (setSelectedText (Some text)) ;;
          set (setPopupPosition
                 (Some {| top := rect_bottom + scrollY + 4;
                          left := rect_left + scrollX |}))
      end
  end.

Definition handleAskAgoraLearn (r : State) (random now : jsstring) : Cmd :=
  match selectedText r with
  | Some (c :: t) =>
      set (setReferencePopup false) ;;
      sendQuery r (c :: t) random now
  | _ => skip
  end.

(** *** Voice *)

Definition voice_url : jsstring := js "http://localhost:3000/api/voice-query".

(** [handleVoiceInput] up to its [await]. *)
Definition handleVoiceInput (r : State) : Cmd :=
  if negb (isRecording r) then
    set (setIsRecording true) ;;
    set_audioChunksRef [] ;;
    call getUserMedia
  else
    reading mediaRecorderRef (fun current =>
      match current with
      | Some mr => stop_recorder_now mr
      | None => skip
      end).

(** [handleVoiceInput] once the microphone is granted. *)
Definition handleVoiceInput_granted : Cmd :=
  reading recorders (fun rs =>
    let mr := length rs in
    new_recorder ;;
    set_mediaRecorderRef (Some mr) ;;
    start_recorder mr ;;
    call (setTimeout (stop_recorder mr) 25000%N)).

(** [handleVoiceInput] when [getUserMedia] rejects. *)
Definition handleVoiceInput_denied : Cmd :=
  call console_error ;;
  set (setIsRecording false) ;;
  set (setError (Some (js "Microphone access denied or unavailable."))).

Definition ondataavailable (data : Blob) : Cmd :=
  if 0 <? size data
  then reading audioChunksRef (fun chunks =>
         set_audioChunksRef (chunks ++ [data]))
  else skip.

(** The 25 second timer of the recorder [mr]:
    [if (mr.state !== "inactive") mr.stop()]. *)
Definition stop_after_timeout (mr : nat) : Cmd :=
  reading recorders (fun rs =>
    match nth_error rs mr with
    | Some recording => stop_recorder_now mr
    | _ => skip
    end).

(** [mr.onstop] up to its [await fetch]; [r] is the render in which the
    recording was started. *)
Definition onstop (r : State) : Cmd :=
  set (setIsRecording false) ;;
  reading audioChunksRef (fun chunks =>
    let blob := {| size := list_sum (map size chunks) |} in
    let audio := [(js "audio", form_blob blob (js "audio.webm"))] in
    match uploadedDoc r with
    | Some d =>
        (* [fd.append] converts the identifier as [String] does; when
           that throws, outside the [try], nothing is sent *)
        match to_String (doc_id d) with
        | Some text =>
            call (fetch voice_url
                    (form_body (audio ++ [(js "docId", form_text text)])))
        | None => skip
        end
    | None => call (fetch voice_url (form_body audio))
    end).

(** [j?.question ?? j?.transcript] *)
Definition voice_question (j : json) : value :=
  coalesce (get (Some j) (js "question")) (get (Some j) (js "transcript")).

Definition could_not_hear : jsstring := js "I couldn't hear a question.".
Definition voice_failed : jsstring := js "Voice processing failed.".

Definition onstop_catch (random : jsstring) : Cmd :=
  call console_error ;;
  pushMessage {| id := makeId (js "a-") random; role := assistant;
                 content := voice_failed; createdAt := None |}.

(** [mr.onstop] from the settlement of its [fetch] up to the [await]
    inside [sendQuery]; [random] and [now] go to the one message pushed. *)
Definition onstop_settled (r : State) (o : FetchOutcome)
    (random now : jsstring) : Cmd :=
  match o with
  | fetch_rejected _ => onstop_catch random
  | fetch_response status parsed =>
      if negb (ok status) then onstop_catch random
      else
        match parsed with
        | inl _ => onstop_catch random
        | inr j =>
            match voice_question j with
            | Some (JStr question) =>
                match trim question with
                | _ :: _ => sendQuery r question random now
                | [] =>
                    pushMessage {| id := makeId (js "a-") random;
                                   role := assistant;
                                   content := could_not_hear;
                                   createdAt := None |}
                end
            | _ =>
                pushMessage {| id := makeId (js "a-") random;
                               role := assistant;
                               content := could_not_hear;
                               createdAt := None |}
            end
        end
  end.

(** *** Export *)

(** [succeeds] tells whether the [try] block runs to its end. *)
Definition exportConversation (r : State) (now : jsstring) (succeeds : bool)
  : Cmd :=
  if succeeds then
    call (download
            (js "conversation-"
             ++ match conversationId r with Some c => c | None => js "local" end
             ++ js ".json")
            {| export_conversationId := conversationId r;
               export_messages := messages r;
               export_uploadedDoc := uploadedDoc r;
               exportedAt := now |})
  else
    call console_error ;;
    set (setError (Some (js "Export failed"))).

(** *** The message pane of the view *)

Inductive MessagePane :=
| no_messages_yet
| message_list (items : list (Message * option (list MathSpan.ReactNode))).

Definition message_pane (s : State) : MessagePane :=
  if length (messages s) =? 0 then no_messages_yet
  else message_list
         (map (fun m => (m, MathSpan.renderMathInline (content m)))
            (messages s)).

(** *** The page as an event-driven machine

    What can happen to a mounted page: a user action, handled by the
    handlers of the current render, or the continuation of an asynchronous
    handler, which runs with the values of the render that started it.
    Continuations are not matched with the requests they answer: any of
    them may come at any time. *)

Inductive Event :=
| ev_effect (random : jsstring)
| ev_input_change (v : jsstring)
| ev_send (random now : jsstring)
| ev_send_settled (o : FetchOutcome) (random : jsstring)
| ev_query_settled (o : FetchOutcome) (random : jsstring)
| ev_mouse_up (selection : option jsstring)
    (rect_bottom rect_left scrollY scrollX : Z)
| ev_ask (random now : jsstring)
| ev_open_modal
| ev_close_modal
| ev_drag_over
| ev_drag_leave
| ev_drop (files : option File)
| ev_file_input (files : option File)
| ev_unselect_file
| ev_upload
| ev_upload_progress (pct : Rounded)
| ev_upload_settled (file : File) (o : XhrOutcome)
| ev_hide_success
| ev_remove_doc
| ev_voice
| ev_mic_granted
| ev_mic_denied
| ev_recorder_data (data : Blob)
| ev_recorder_timeout (mr : nat)
| ev_recorder_stopped (r : State)
| ev_voice_settled (r : State) (o : FetchOutcome) (random now : jsstring)
| ev_reference_text (v : jsstring)
| ev_reference_use
| ev_reference_cancel
| ev_export (now : jsstring) (succeeds : bool).

(** A control that is rendered only under [shown]. *)
Definition when (shown : bool) (c : Cmd) : Cmd := if shown then c else skip.

(** What the event runs, given the current render [r]. *)
Definition dispatch (e : Event) (r : State) : Cmd :=
  match e with
  | ev_effect random => conversationId_effect r random
  | ev_input_change v => when (negb (isLoading r)) (set (setInputValue v))
  | ev_send random now =>
      when (negb (isLoading r)) (handleSendMessage r random now)
  | ev_send_settled o random => handleSendMessage_settled o random
  | ev_query_settled o random => sendQuery_settled o random
  | ev_mouse_up selection rect_bottom rect_left scrollY scrollX =>
      handleMouseUp selection rect_bottom rect_left scrollY scrollX
  | ev_ask random now =>
      when (negb (blank (selectedText r))
            && match popupPosition r with Some _ => true | None => false end)
        (handleAskAgoraLearn r random now)
  | ev_open_modal => set (setShowUploadModal true)
  | ev_close_modal => when (showUploadModal r) (set (setShowUploadModal false))
  | ev_drag_over => when (showUploadModal r) (set (setIsDragging true))
  | ev_drag_leave => when (showUploadModal r) (set (setIsDragging false))
  | ev_drop files =>
      when (showUploadModal r)
        (set (setIsDragging false) ;;
         match files with Some f => handleFileSelect f | None => skip end)
  | ev_file_input files =>
      when (showUploadModal r) (handleFileInputChange files)
  | ev_unselect_file =>
      when (showUploadModal r
            && match uploadedFile r with Some _ => true | None => false end)
        (set (setUploadedFile None))
  | ev_upload =>
      when (showUploadModal r && negb (isUploading r)) (handleUpload r)
  | ev_upload_progress pct => upload_onprogress pct
  | ev_upload_settled file o => handleUpload_settled file o
  | ev_hide_success => set (setShowSuccess false)
  | ev_remove_doc =>
      when (match uploadedDoc r with Some _ => true | None => false end)
        (set (setUploadedDoc None))
  | ev_voice => handleVoiceInput r
  | ev_mic_granted => handleVoiceInput_granted
  | ev_mic_denied => handleVoiceInput_denied
  | ev_recorder_data data => ondataavailable data
  | ev_recorder_timeout mr => stop_after_timeout mr
  | ev_recorder_stopped r' => onstop r'
  | ev_voice_settled r' o random now => onstop_settled r' o random now
  | ev_reference_text v =>
      when (referencePopup r) (set (setReferenceText v))
  | ev_reference_use =>
      when (referencePopup r)
        (set (setInputValue
                (js "Reference: " ++ [34%N] ++ referenceText r
                 ++ [34%N; 10%N])) ;;
         set (setReferencePopup false))
  | ev_reference_cancel =>
      when (referencePopup r) (set (setReferencePopup false))
  | ev_export now succeeds => exportConversation r now succeeds
  end.

Definition step (e : Event) (w : World) : World :=
  dispatch e (state w) w.

Definition run (events : list Event) (w : World) : World :=
  fold_left (fun w e => step e w) events w.

(** Loading the page: the initial render, then the effect. *)
Definition load (ls : Storage) (random now : jsstring) : World :=
  step (ev_effect random) (initial_world ls now).

End ChatPage.

(* ================================================================= *)
(** ** Balanced dollar delimiters, as the specification words them *)

Module Delimited.
Import MathSpan.

Definition no_dollar (t : jsstring) : bool :=
  forallb (fun c => negb (is_dollar c)) t.

(** Delimited segments

    The written form the specification speaks of: a text is a sequence of
    segments, plain text or a math body between a pair of single-dollar
    (inline) or double-dollar (block) markers.  Delimiters are balanced
    when every dollar of the text belongs to such a pair: plain text and
    math bodies hold no dollar, and an inline body is not empty (two
    adjacent single-dollar markers are a double-dollar marker). *)

Inductive Segment :=
| Plain (text : jsstring)
| InlineSeg (body : jsstring)
| BlockSeg (body : jsstring).

Definition written (g : Segment) : jsstring :=
  match g with
  | Plain t => t
  | InlineSeg m => dollar :: m ++ [dollar]
  | BlockSeg m => dollar :: dollar :: m ++ [dollar; dollar]
  end.

Definition undelimited (g : Segment) : jsstring :=
  match g with
  | Plain t => t
  | InlineSeg m => m
  | BlockSeg m => m
  end.

Definition balanced_segment (g : Segment) : bool :=
  match g with
  | Plain t => no_dollar t
  | InlineSeg m => no_dollar m && negb (Nat.eqb (length m) 0)
  | BlockSeg m => no_dollar m
  end.

Definition source_text (gs : list Segment) : jsstring :=
  concat (map written gs).
Definition without_delimiters (gs : list Segment) : jsstring :=
  concat (map undelimited gs).
Definition balanced (gs : list Segment) : bool :=
  forallb balanced_segment gs.

End Delimited.

(* ================================================================= *)
(** ** The specification's wording of some behaviours *)

Module Wording.
Import ChatPage.


(** A field that is there: neither [undefined] nor [null]. *)
Definition present (v : value) : option json :=
  match v with
  | None | Some JNull => None
  | Some j => Some j
  end.

(** The text of an answer: [String] of the response's [answer] field,
    else of [assistantText], else the body when it is a string, else
    nothing; [None] when [String] throws. *)
Definition answer_text (body : json) : option jsstring :=
  match present (get (Some body) (js "answer")) with
  | Some a => to_String a
  | None =>
      match present (get (Some body) (js "assistantText")) with
      | Some t => to_String t
      | None =>
          match body with
          | JStr s => Some s
          | _ => Some []
          end
      end
  end.

(** The identifier an upload response carries: [file.id], else [docId],
    else [id]. *)
Definition document_identifier (data : json) : option json :=
  match present (get (get (Some data) (js "file")) (js "id")) with
  | Some x => Some x
  | None =>
      match present (get (Some data) (js "docId")) with
      | Some x => Some x
      | None => present (get (Some data) (js "id"))
      end
  end.

(** The display name: [file.name], else the local file's name. *)
Definition display_name (data : json) (file : File) : json :=
  match present (get (get (Some data) (js "file")) (js "name")) with
  | Some n => n
  | None => JStr (file_name file)
  end.

(** The transcript a voice response carries, under [question] or else
    [transcript], when it is a string that is not blank. *)
Definition heard (j : json) : option jsstring :=
  match
    match present (get (Some j) (js "question")) with
    | Some q => Some q
    | None => present (get (Some j) (js "transcript"))
    end
  with
  | Some (JStr q) =>
      match trim q with
      | [] => None
      | _ :: _ => Some q
      end
  | _ => None
  end.

(** A request that fails: a network error, or a status outside 200-299. *)
Definition request_failed (o : FetchOutcome) : bool :=
  match o with
  | fetch_rejected _ => true
  | fetch_response status _ => negb (ok status)
  end.

Definition user_message (queryText random now : jsstring) : Message :=
  {| id := makeId (js "u-") random; role := user;
     content := queryText; createdAt := Some now |}.

Definition assistant_message (text random : jsstring) : Message :=
  {| id := makeId (js "a-") random; role := assistant;
     content := text; createdAt := None |}.

(** The response [{file: {id: "d1", name: "a.pdf"}}]. *)
Definition sample_upload : json :=
  JObj [(js "file", JObj [(js "id", JStr (js "d1"));
                          (js "name", JStr (js "a.pdf"))])].

(** A command that only appends to the message log. *)
Definition appends (c : Cmd) : Prop :=
  forall w, exists added,
    messages (state (c w)) = messages (state w) ++ added.

(** A command that leaves the identifier alone, in the component and in
    the storage. *)
Definition keeps (c : Cmd) : Prop :=
  forall w,
    conversationId (state (c w)) = conversationId (state w)
    /\ localStorage (c w) = localStorage w.

(** A stored value and a world to try the handlers on. *)
Definition sample_storage : Storage :=
  {| readable := true; writable := true; item := Some (js "conv-1") |}.

Definition sample_world : World :=
  initial_world sample_storage (js "2024-01-01T00:00:00.000Z").

(** The same world with a document already active. *)
Definition sample_with_document : World :=
  set (setUploadedDoc
         (Some {| doc_id := JStr (js "d0"); doc_name := JStr (js "old.pdf") |}))
    sample_world.


End Wording.

(* ================================================================= *)
(** ** The layout the renderer's loop finds in a text *)

Module Layout.
Import MathSpan Delimited.

Definition node_key (e : ReactNode) : Key :=
  match e with
  | span k _ => k
  | BlockMath k _ => k
  | InlineMath k _ => k
  end.

Inductive MathKind := block_math | inline_math.

(** One pass of the loop: the text before a match, and the match. *)
Record Item := {
  before : jsstring;
  kind : MathKind;
  math_body : jsstring
}.

Definition delimiter (k : MathKind) : jsstring :=
  match k with
  | block_math => [dollar; dollar]
  | inline_math => [dollar]
  end.

Definition item_text (it : Item) : jsstring :=
  before it ++ delimiter (kind it) ++ math_body it ++ delimiter (kind it).

(** A text laid out as matches, each with the text before it, and the
    text after the last match. *)
Definition layout_text (items : list Item) (tail : jsstring) : jsstring :=
  concat (map item_text items) ++ tail.

Definition text_span (key : Key) (t : jsstring) : list ReactNode :=
  match t with
  | [] => []
  | _ :: _ => [span key t]
  end.

Definition math_span (k : MathKind) (i : nat) (m : jsstring)
  : list ReactNode :=
  match m with
  | [] => []
  | _ :: _ =>
      [match k with
       | block_math => BlockMath (key_block i) m
       | inline_math => InlineMath (key_inline i) m
       end]
  end.

(** The elements for a layout, the first match being numbered [i]. *)
Fixpoint layout_spans (i : nat) (items : list Item) (tail : jsstring)
  : list ReactNode :=
  match items with
  | [] => text_span key_text_end tail
  | it :: rest =>
      text_span (key_text i) (before it)
      ++ math_span (kind it) i (math_body it)
      ++ layout_spans (S i) rest tail
  end.

Definition count_dollar (t : jsstring) : nat := length (filter is_dollar t).

(** What the loop guarantees of an item it found: no dollar before the
    match, none inside an inline body. *)
Definition scanned_item (it : Item) : bool :=
  no_dollar (before it)
  && match kind it with
     | inline_math => no_dollar (math_body it)
     | block_math => true
     end.

(** An item as an author writes it: no dollar but the delimiters, and a
    body that is not empty. *)
Definition typeset_item (it : Item) : bool :=
  no_dollar (before it) && no_dollar (math_body it)
  && negb (Nat.eqb (length (math_body it)) 0).

(** The capture groups of a match of kind [k] with body [m]. *)
Definition groups_of (k : MathKind) (m : jsstring) (a : Anchored) : Prop :=
  match k with
  | block_math => group1 a = Some m /\ group2 a = None
  | inline_math => group1 a = None /\ group2 a = Some m
  end.

(** A key numbered [i] or more, or [text-end]. *)
Definition key_from (i : nat) (k : Key) : Prop :=
  match k with
  | key_text j | key_block j | key_inline j => i <= j
  | key_text_end => True
  end.

(** What a produced element may hold: a text span before a match and an
    inline body hold no dollar, the last text span at most one. *)
Definition settled_node (e : ReactNode) : bool :=
  match e with
  | span key_text_end t => count_dollar t <=? 1
  | span _ t => no_dollar t
  | InlineMath _ m => no_dollar m
  | BlockMath _ _ => true
  end.

End Layout.

(* ================================================================= *)
(** ** Properties of worlds and commands *)

Module Invariants.
Import ChatPage Wording.

(** The body of a response with a success status that could be read. *)
Definition answered (o : FetchOutcome) : option json :=
  match o with
  | fetch_response status (inr body) => if ok status then Some body else None
  | _ => None
  end.

(** A command that keeps a property of the world. *)
Definition maintains (J : World -> Prop) (c : Cmd) : Prop :=
  forall w, J w -> J (c w).

Definition starts_with (prefix s : jsstring) : bool :=
  eqb (firstn (length prefix) s) prefix.

(** What the handlers push: a user message has an identifier made with
    [u-] and a timestamp; an assistant message has an identifier made with
    [a-] and no timestamp. *)
Definition pushed_message (m : Message) : Prop :=
  match role m with
  | user => starts_with (js "u-") (id m) = true /\ createdAt m <> None
  | assistant => starts_with (js "a-") (id m) = true /\ createdAt m = None
  end.

(** The active document, if any, has an identifier that is truthy. *)
Definition document_identified (w : World) : Prop :=
  match uploadedDoc (state w) with
  | Some d => truthy (Some (doc_id d)) = true
  | None => True
  end.

(** The log is the welcome message followed by pushed messages. *)
Definition log_well_formed (now : jsstring) (w : World) : Prop :=
  exists rest,
    messages (state w) = welcome now :: rest /\ Forall pushed_message rest.

(** No empty chunk is buffered. *)
Definition chunks_not_empty (w : World) : Prop :=
  Forall (fun b => 0 < size b) (audioChunksRef w).

(** The reference popup is closed and its text is empty. *)
Definition reference_unused (w : World) : Prop :=
  referencePopup (state w) = false /\ referenceText (state w) = [].

(** The selection popup has a position exactly when a text is selected,
    and a selected text is never blank. *)
Definition selection_consistent (w : World) : Prop :=
  match selectedText (state w), popupPosition (state w) with
  | Some t, Some _ => trim t <> []
  | None, None => True
  | _, _ => False
  end.

End Invariants.

(* ================================================================= *)
(** * Facts *)

Module JsStringFacts.

Lemma eqb_eq (a b : jsstring) : eqb a b = true <-> a = b.
Proof.
  revert b. induction a as [|x a IH]; intros [|y b]; simpl;
    try (split; [discriminate | congruence]); try tauto.
  rewrite andb_true_iff, N.eqb_eq, IH. split.
  - intros [-> ->]. reflexivity.
  - intros [= -> ->]. split; reflexivity.
Qed.

Lemma eqb_refl (a : jsstring) : eqb a a = true.
Proof. now apply eqb_eq. Qed.

End JsStringFacts.

(* ================================================================= *)
(** ** Facts about the renderer *)

Module MathSpanFacts.
Import MathSpan Delimited.

Local Arguments match_at : simpl never.

Lemma no_dollar_cons c t :
  no_dollar (c :: t) = true <-> is_dollar c = false /\ no_dollar t = true.
Proof.
  unfold no_dollar; simpl. rewrite andb_true_iff, negb_true_iff. tauto.
Qed.

Lemma no_dollar_app t u :
  no_dollar (t ++ u) = no_dollar t && no_dollar u.
Proof. apply forallb_app. Qed.

Lemma firstn_exact (A : Type) (l1 l2 : list A) :
  firstn (length l1) (l1 ++ l2) = l1.
Proof. induction l1; simpl; congruence. Qed.

Lemma firstn_wrapped (A : Type) (pre m post w : list A) k :
  k = length (pre ++ m ++ post) ->
  firstn k (pre ++ m ++ post ++ w) = pre ++ m ++ post.
Proof.
  intros ->.
  replace (pre ++ m ++ post ++ w) with ((pre ++ m ++ post) ++ w)
    by now rewrite <- !app_assoc.
  apply firstn_exact.
Qed.

Lemma skipn_exact (A : Type) (l1 l2 : list A) :
  skipn (length l1) (l1 ++ l2) = l2.
Proof. induction l1; simpl; congruence. Qed.

Lemma rendered_text_app a b :
  rendered_text (a ++ b) = rendered_text a ++ rendered_text b.
Proof. unfold rendered_text. now rewrite map_app, concat_app. Qed.

(** *** The regular expression *)

Lemma match_at_not_dollar c w :
  is_dollar c = false -> match_at (c :: w) = None.
Proof.
  intros H. unfold match_at, alt_block, alt_inline.
  destruct w; rewrite H; reflexivity.
Qed.

Lemma match_at_nil : match_at [] = None.
Proof. reflexivity. Qed.

Lemma search_cons_miss c w i :
  match_at (c :: w) = None -> search (c :: w) i = search w (S i).
Proof. intros H. simpl. now rewrite H. Qed.

Lemma search_hit w a i :
  match_at w = Some a -> search w i = Some {| index := i; groups := a |}.
Proof.
  intros H. destruct w as [|c w]; [discriminate H|].
  simpl. now rewrite H.
Qed.

Lemma search_no_dollar t w i :
  no_dollar t = true -> search (t ++ w) i = search w (i + length t).
Proof.
  revert i. induction t as [|c t IH]; intros i H.
  - simpl. now rewrite Nat.add_0_r.
  - apply no_dollar_cons in H as [Hc Ht].
    change ((c :: t) ++ w) with (c :: (t ++ w)).
    rewrite search_cons_miss by now apply match_at_not_dollar.
    rewrite IH by assumption. simpl. f_equal. lia.
Qed.

Lemma search_nil i : search [] i = None.
Proof. reflexivity. Qed.

Lemma find_single_app m w :
  no_dollar m = true -> find_single (m ++ dollar :: w) = Some (length m).
Proof.
  induction m as [|c m IH]; intros H.
  - reflexivity.
  - apply no_dollar_cons in H as [Hc Hm].
    simpl. rewrite Hc, IH by assumption. reflexivity.
Qed.

Lemma find_double_app m w :
  no_dollar m = true ->
  find_double (m ++ dollar :: dollar :: w) = Some (length m).
Proof.
  induction m as [|c m IH]; intros H.
  - reflexivity.
  - apply no_dollar_cons in H as [Hc Hm].
    simpl. rewrite Hc, IH by assumption. reflexivity.
Qed.

Lemma find_single_bound w k : find_single w = Some k -> k < length w.
Proof.
  revert k. induction w as [|a w IH]; intros k; simpl; [discriminate|].
  destruct (is_dollar a).
  - intros [= <-]. lia.
  - destruct (find_single w) as [j|]; [|discriminate].
    intros [= <-]. specialize (IH j eq_refl). lia.
Qed.

Lemma find_double_bound w k : find_double w = Some k -> k + 2 <= length w.
Proof.
  revert k. induction w as [|a w IH]; intros k; simpl; [discriminate|].
  destruct (is_dollar a && head_is_dollar w) eqn:E.
  - intros [= <-]. apply andb_true_iff in E as [_ E].
    destruct w; simpl in *; [discriminate | lia].
  - destruct (find_double w) as [j|]; [|discriminate].
    intros [= <-]. specialize (IH j eq_refl). lia.
Qed.

(** Every match is at least two code units long and lies inside the
    text it was found in. *)
Lemma match_at_length w a :
  match_at w = Some a -> 2 <= length (whole a) <= length w.
Proof.
  unfold match_at, alt_block, alt_inline.
  destruct w as [|x [|y rest]]; try discriminate.
  - destruct (is_dollar x); simpl; discriminate.
  - destruct (is_dollar x && is_dollar y).
    + destruct (find_double rest) as [k|] eqn:E.
      * intros [= <-]. apply find_double_bound in E.
        cbn [whole]. rewrite length_firstn. simpl length. lia.
      * destruct (is_dollar x); [|discriminate].
        destruct (find_single (y :: rest)) as [k|] eqn:F; [|discriminate].
        intros [= <-]. apply find_single_bound in F.
        cbn [whole]. rewrite length_firstn. simpl length in *. lia.
    + destruct (is_dollar x); [|discriminate].
      destruct (find_single (y :: rest)) as [k|] eqn:F; [|discriminate].
      intros [= <-]. apply find_single_bound in F.
      cbn [whole]. rewrite length_firstn. simpl length in *. lia.
Qed.

Lemma search_bounds w i m :
  search w i = Some m ->
  i <= index m /\ index m + 2 <= end_index m /\ end_index m <= i + length w.
Proof.
  revert i. induction w as [|c w IH]; intros i.
  - rewrite search_nil. discriminate.
  - simpl. destruct (match_at (c :: w)) as [a|] eqn:E.
    + intros [= <-]. apply match_at_length in E.
      unfold end_index; simpl in *. lia.
    + intros H. apply IH in H. simpl. lia.
Qed.

Lemma exec_bounds content lastIndex m :
  exec content lastIndex = Some m ->
  lastIndex + 2 <= end_index m /\ end_index m <= length content.
Proof.
  unfold exec. intros H.
  destruct (Nat.le_gt_cases lastIndex (length content)) as [L|L].
  - apply search_bounds in H. rewrite length_skipn in H. lia.
  - rewrite skipn_all2 in H by lia. discriminate.
Qed.

(** *** Termination of the loop *)

Lemma scan_total fuel content lastIndex mathIndex elements :
  length content - lastIndex <= fuel ->
  exists r, scan fuel content lastIndex mathIndex elements = Some r.
Proof.
  revert lastIndex mathIndex elements.
  induction fuel as [|fuel IH]; intros lastIndex mathIndex elements L;
    simpl; destruct (exec content lastIndex) as [m|] eqn:E; eauto.
  - apply exec_bounds in E. lia.
  - apply IH. apply exec_bounds in E. lia.
Qed.

Lemma renderMathInline_total content :
  exists elements, renderMathInline content = Some elements.
Proof.
  unfold renderMathInline.
  destruct (scan_total (fuel := length content) content 0 0 [])
    as [r ->]; [lia|].
  simpl. eauto.
Qed.

(** *** Text without dollars *)

Lemma exec_no_dollar s : no_dollar s = true -> exec s 0 = None.
Proof.
  intros H. unfold exec. simpl skipn.
  rewrite <- (app_nil_r s), search_no_dollar by assumption.
  apply search_nil.
Qed.

Lemma match_at_inline m w :
  no_dollar m = true -> m <> [] ->
  match_at (dollar :: m ++ dollar :: w)
  = Some {| whole := dollar :: m ++ [dollar];
            group1 := None; group2 := Some m |}.
Proof.
  intros Hm Hne. destruct m as [|c m']; [congruence|].
  pose proof Hm as Hm'. apply no_dollar_cons in Hm' as [Hc _].
  change (dollar :: (c :: m') ++ dollar :: w)
    with (dollar :: c :: (m' ++ dollar :: w)).
  unfold match_at, alt_block, alt_inline. cbv iota beta.
  rewrite Hc. change (is_dollar dollar) with true. cbn [andb].
  change (c :: m' ++ dollar :: w) with ((c :: m') ++ dollar :: w).
  rewrite find_single_app by assumption.
  f_equal. f_equal.
  - apply (firstn_wrapped [dollar] (c :: m') [dollar] w).
    simpl. rewrite length_app. simpl. lia.
  - f_equal. apply firstn_exact.
Qed.

Lemma match_at_block m w :
  no_dollar m = true ->
  match_at (dollar :: dollar :: m ++ dollar :: dollar :: w)
  = Some {| whole := dollar :: dollar :: m ++ [dollar; dollar];
            group1 := Some m; group2 := None |}.
Proof.
  intros Hm. unfold match_at, alt_block.
  change (is_dollar dollar) with true. cbn [andb].
  rewrite find_double_app by assumption.
  f_equal. f_equal.
  - apply (firstn_wrapped [dollar; dollar] m [dollar; dollar] w).
    simpl. rewrite length_app. simpl. lia.
  - f_equal. apply firstn_exact.
Qed.

Lemma scan_done fuel content lastIndex mathIndex elements :
  exec content lastIndex = None ->
  scan fuel content lastIndex mathIndex elements
  = Some (elements, lastIndex).
Proof. intros H. destruct fuel; simpl; now rewrite H. Qed.

Lemma scan_step fuel content lastIndex mathIndex elements m :
  exec content lastIndex = Some m ->
  scan (S fuel) content lastIndex mathIndex elements
  = scan fuel content (end_index m) (S mathIndex)
      (loop_body content lastIndex mathIndex elements m).
Proof. intros H. simpl. now rewrite H. Qed.

(** The text pending since [lastIndex] and the body of the match are
    what one pass through the loop adds. *)
Lemma loop_body_text pre t rest mathIndex elements a body :
  (group1 a = Some body /\ group2 a = None) \/
  (group1 a = None /\ group2 a = Some body) ->
  rendered_text
    (loop_body (pre ++ t ++ rest) (length pre) mathIndex elements
       {| index := length pre + length t; groups := a |})
  = rendered_text elements ++ t ++ body.
Proof.
  intros G. unfold loop_body. cbn [index groups].
  set (elements1 := if _ <? _ then _ else _).
  assert (E1 : rendered_text elements1 = rendered_text elements ++ t).
  { subst elements1. destruct (Nat.ltb_spec (length pre) (length pre + length t)).
    - rewrite rendered_text_app. unfold slice.
      rewrite skipn_exact.
      replace (length pre + length t - length pre) with (length t) by lia.
      rewrite firstn_exact. unfold rendered_text. simpl.
      now rewrite app_nil_r.
    - destruct t; simpl in *; [now rewrite app_nil_r | lia]. }
  destruct G as [[-> ->]|[-> ->]]; destruct body as [|c body]; cbn [truthy_group];
    rewrite ?rendered_text_app, E1; unfold rendered_text; simpl;
    rewrite ?app_nil_r, <- ?app_assoc; reflexivity.
Qed.

Lemma exec_after_plain pre t w :
  no_dollar t = true ->
  exec (pre ++ t ++ w) (length pre) = search w (length pre + length t).
Proof.
  intros H. unfold exec. rewrite skipn_exact. now apply search_no_dollar.
Qed.

(** The loop on a balanced text: with [lastIndex] at a segment boundary
    and the plain text [t] pending, the spans still to come carry [t] and
    then the segments' bodies. *)
Lemma scan_segments gs :
  balanced gs = true ->
  forall fuel pre t mathIndex elements,
    no_dollar t = true ->
    length (t ++ source_text gs) <= fuel ->
    exists r,
      scan fuel (pre ++ t ++ source_text gs) (length pre) mathIndex elements
      = Some r /\
      rendered_text (finish (pre ++ t ++ source_text gs) r)
      = rendered_text elements ++ t ++ without_delimiters gs.
Proof.
  induction gs as [|g gs IH]; intros B fuel pre t mathIndex elements Ht L.
  - exists (elements, length pre). split.
    + apply scan_done. rewrite exec_after_plain by assumption.
      apply search_nil.
    + unfold finish, source_text, without_delimiters. simpl.
      rewrite !app_nil_r.
      destruct (Nat.ltb_spec (length pre) (length (pre ++ t))) as [Lt|Ge].
      * rewrite rendered_text_app. unfold slice_from.
        rewrite skipn_exact. unfold rendered_text. simpl.
        now rewrite app_nil_r.
      * rewrite length_app in Ge.
        destruct t; simpl in *; [now rewrite app_nil_r | lia].
  - simpl in B. apply andb_true_iff in B as [Bg B].
    change (source_text (g :: gs)) with (written g ++ source_text gs) in *.
    change (without_delimiters (g :: gs))
      with (undelimited g ++ without_delimiters gs).
    destruct g as [u|m|m]; simpl in Bg; cbn [written undelimited] in *.
    + (* plain text joins the pending text *)
      destruct (IH B fuel pre (t ++ u) mathIndex elements) as [r [R T]].
      * now rewrite no_dollar_app, Ht, Bg.
      * now rewrite <- app_assoc.
      * exists r.
        replace (pre ++ t ++ u ++ source_text gs)
          with (pre ++ (t ++ u) ++ source_text gs)
          by now rewrite <- app_assoc.
        split; [exact R|]. rewrite T. now rewrite <- app_assoc.
    + (* an inline segment *)
      apply andb_true_iff in Bg as [Bm Bn].
      assert (Hne : m <> []) by (destruct m; [discriminate | congruence]).
      set (rest := source_text gs) in *.
      assert (C : pre ++ t ++ (dollar :: m ++ [dollar]) ++ rest
                  = pre ++ t ++ (dollar :: m ++ dollar :: rest))
        by (simpl; now rewrite <- app_assoc).
      assert (X : exec (pre ++ t ++ (dollar :: m ++ [dollar]) ++ rest) (length pre)
                  = Some {| index := length pre + length t;
                            groups := {| whole := dollar :: m ++ [dollar];
                                         group1 := None;
                                         group2 := Some m |} |}).
      { rewrite C, exec_after_plain by assumption.
        apply search_hit. now apply match_at_inline. }
      destruct fuel as [|fuel];
        [rewrite !length_app in L; simpl in L; lia|].
      rewrite (@scan_step fuel _ _ mathIndex elements _ X).
      destruct (IH B fuel (pre ++ t ++ dollar :: m ++ [dollar]) []
                  (S mathIndex)
                  (loop_body (pre ++ t ++ (dollar :: m ++ [dollar]) ++ rest)
                     (length pre) mathIndex elements
                     {| index := length pre + length t;
                        groups := {| whole := dollar :: m ++ [dollar];
                                     group1 := None;
                                     group2 := Some m |} |}))
        as [r [R T]]; [reflexivity | |].
      * rewrite !length_app in *. simpl in *. rewrite length_app in L. lia.
      * exists r.
        replace ((pre ++ t ++ dollar :: m ++ [dollar]) ++ [] ++ rest)
          with (pre ++ t ++ (dollar :: m ++ [dollar]) ++ rest) in R, T
          by (simpl; now rewrite <- !app_assoc).
        replace (length (pre ++ t ++ dollar :: m ++ [dollar]))
          with (end_index {| index := length pre + length t;
                             groups := {| whole := dollar :: m ++ [dollar];
                                          group1 := None;
                                          group2 := Some m |} |}) in R
          by (unfold end_index; cbn [index groups whole];
              rewrite !length_app; simpl; rewrite length_app; simpl; lia).
        split; [exact R|].
        rewrite T, loop_body_text with (body := m) by (right; now split).
        simpl. now rewrite <- !app_assoc.
    + (* a block segment *)
      set (rest := source_text gs) in *.
      assert (C : pre ++ t ++ (dollar :: dollar :: m ++ [dollar; dollar]) ++ rest
                  = pre ++ t ++ (dollar :: dollar :: m ++ dollar :: dollar :: rest))
        by (simpl; now rewrite <- app_assoc).
      assert (X : exec (pre ++ t ++ (dollar :: dollar :: m ++ [dollar; dollar]) ++ rest)
                    (length pre)
                  = Some {| index := length pre + length t;
                            groups := {| whole := dollar :: dollar :: m ++ [dollar; dollar];
                                         group1 := Some m;
                                         group2 := None |} |}).
      { rewrite C, exec_after_plain by assumption.
        apply search_hit. now apply match_at_block. }
      destruct fuel as [|fuel];
        [rewrite !length_app in L; simpl in L; lia|].
      rewrite (@scan_step fuel _ _ mathIndex elements _ X).
      destruct (IH B fuel (pre ++ t ++ dollar :: dollar :: m ++ [dollar; dollar]) []
                  (S mathIndex)
                  (loop_body (pre ++ t ++ (dollar :: dollar :: m ++ [dollar; dollar]) ++ rest)
                     (length pre) mathIndex elements
                     {| index := length pre + length t;
                        groups := {| whole := dollar :: dollar :: m ++ [dollar; dollar];
                                     group1 := Some m;
                                     group2 := None |} |}))
        as [r [R T]]; [reflexivity | |].
      * rewrite !length_app in *. simpl in *. rewrite length_app in L. lia.
      * exists r.
        replace ((pre ++ t ++ dollar :: dollar :: m ++ [dollar; dollar])
                   ++ [] ++ rest)
          with (pre ++ t ++ (dollar :: dollar :: m ++ [dollar; dollar]) ++ rest) in R, T
          by (simpl; now rewrite <- !app_assoc).
        replace (length (pre ++ t ++ dollar :: dollar :: m ++ [dollar; dollar]))
          with (end_index {| index := length pre + length t;
                             groups := {| whole := dollar :: dollar :: m ++ [dollar; dollar];
                                          group1 := Some m;
                                          group2 := None |} |}) in R
          by (unfold end_index; cbn [index groups whole];
              rewrite !length_app; simpl; rewrite length_app; simpl; lia).
        split; [exact R|].
        rewrite T, loop_body_text with (body := m) by (left; now split).
        simpl. now rewrite <- !app_assoc.
Qed.

Lemma filter_no_dollar t :
  no_dollar t = true -> filter (fun c => negb (is_dollar c)) t = t.
Proof.
  induction t as [|c t IH]; intros H; [reflexivity|].
  apply no_dollar_cons in H as [Hc Ht]. simpl. rewrite Hc. simpl.
  now rewrite IH.
Qed.

(** On a balanced text, removing the delimiters is removing the dollars. *)
Lemma without_delimiters_filter gs :
  balanced gs = true ->
  without_delimiters gs
  = filter (fun c => negb (is_dollar c)) (source_text gs).
Proof.
  unfold without_delimiters, source_text.
  induction gs as [|g gs IH]; intros B; [reflexivity|].
  simpl in B. apply andb_true_iff in B as [Bg B].
  simpl. rewrite filter_app, <- IH by assumption. f_equal.
  destruct g as [t|m|m]; simpl in *.
  - now rewrite filter_no_dollar.
  - apply andb_true_iff in Bg as [Bm _].
    rewrite filter_app, filter_no_dollar by assumption.
    simpl. now rewrite app_nil_r.
  - rewrite filter_app, filter_no_dollar by assumption.
    simpl. now rewrite app_nil_r.
Qed.

(** C2: for a text whose dollar delimiters are balanced, the renderer
    returns spans whose texts, concatenated in order, type tags ignored,
    are the text with the delimiters of its math segments removed. *)
Theorem balanced_text_rendered gs :
  balanced gs = true ->
  exists elements,
    renderMathInline (source_text gs) = Some elements
    /\ rendered_text elements = without_delimiters gs
    /\ rendered_text elements
       = filter (fun c => negb (is_dollar c)) (source_text gs).
Proof.
  intros B.
  destruct (@scan_segments gs B (length (source_text gs)) [] [] 0 [])
    as [r [R T]]; [reflexivity | reflexivity |].
  simpl in R, T. unfold renderMathInline. rewrite R. simpl.
  exists (finish (source_text gs) r).
  split; [reflexivity|]. split; [exact T|].
  rewrite T. now apply without_delimiters_filter.
Qed.

Lemma balanced_text_rendered_witness :
  balanced [Plain (js "a "); InlineSeg (js "x"); InlineSeg (js "y");
            Plain (js " b "); BlockSeg (js "z"); BlockSeg []] = true
  /\ exists elements,
       renderMathInline (js "a $x$$y$ b $$z$$$$$$") = Some elements
       /\ rendered_text elements = js "a xy b z".
Proof.
  split; [reflexivity|].
  destruct (@balanced_text_rendered
              [Plain (js "a "); InlineSeg (js "x"); InlineSeg (js "y");
               Plain (js " b "); BlockSeg (js "z"); BlockSeg []] eq_refl)
    as [elements [R [T _]]].
  exists elements. split; [exact R | exact T].
Defined.

(** C6, the claim as worded fails on the empty string, which holds no
    dollar and for which the renderer returns no span at all. *)
Lemma empty_text_renders_no_span :
  no_dollar [] = true
  /\ renderMathInline [] = Some []
  /\ ~ exists key, renderMathInline [] = Some [span key []].
Proof.
  split; [reflexivity|]. split; [reflexivity|].
  intros [key H]. discriminate H.
Qed.

(** C6, amended: for a text without a dollar the renderer returns the one
    text span holding the text when the text is not empty, and no span
    when it is empty. *)
Theorem text_without_dollar_is_one_span s :
  no_dollar s = true ->
  renderMathInline s
  = Some match s with
         | [] => []
         | _ :: _ => [span key_text_end s]
         end.
Proof.
  intros H. unfold renderMathInline.
  rewrite scan_done by now apply exec_no_dollar.
  destruct s; reflexivity.
Qed.

Lemma text_without_dollar_is_one_span_witness :
  no_dollar (js "plain text") = true
  /\ renderMathInline (js "plain text")
     = Some [span key_text_end (js "plain text")].
Proof.
  split; [reflexivity|].
  exact (@text_without_dollar_is_one_span (js "plain text") eq_refl).
Defined.

End MathSpanFacts.

(* ================================================================= *)
(** ** Facts about the chat page *)

Module ChatPageFacts.
Import ChatPage Wording.
Local Open Scope cmd_scope.

Lemma messages_set u w :
  messages (state (set u w))
  = messages (state w)
    ++ match u with setMessages_push m => [m] | _ => [] end.
Proof. destruct u; simpl; now rewrite ?app_nil_r. Qed.

Lemma converse_answer_text body :
  to_String (converse_answer body) = answer_text body.
Proof.
  unfold converse_answer, answer_text, coalesce_with, present.
  destruct (get (Some body) (js "answer")) as [[]|];
    destruct (get (Some body) (js "assistantText")) as [[]|];
    destruct body; reflexivity.
Qed.

(** What [sendQuery] runs for a query that is not blank. *)
Lemma sendQuery_not_blank r queryText random now :
  trim queryText <> [] ->
  sendQuery r queryText random now
  = (set (setIsLoading true) ;; set (setError None) ;;
     pushMessage (user_message queryText random now) ;;
     call (fetch converse_url
             (json_body (JObj (converse_payload r queryText))))).
Proof.
  intros H. unfold sendQuery. destruct (trim queryText); [congruence|].
  reflexivity.
Qed.

(** C9: a query whose trimmed text is empty changes nothing: no message,
    no loading flag, no error, no request; the component, its refs, the
    storage and the list of calls made are what they were. *)
Theorem sendQuery_blank_is_noop r queryText random now w :
  trim queryText = [] ->
  sendQuery r queryText random now w = w.
Proof. intros H. unfold sendQuery. now rewrite H. Qed.

Lemma sendQuery_blank_is_noop_witness :
  trim (js "  ") = []
  /\ sendQuery (state sample_world) (js "  ") (js "r1") (js "t1") sample_world
     = sample_world.
Proof.
  split; [reflexivity|].
  apply (@sendQuery_blank_is_noop (state sample_world) (js "  ")).
  reflexivity.
Defined.




(** *** Commands only append to the message log *)

Lemma appends_skip : appends skip.
Proof. intros w. exists []. unfold skip. now rewrite app_nil_r. Qed.

Lemma appends_set u : appends (set u).
Proof. intros w. eexists. apply messages_set. Qed.

Lemma appends_pushMessage m : appends (pushMessage m).
Proof. apply appends_set. Qed.

Lemma appends_call c : appends (call c).
Proof. intros w. exists []. simpl. now rewrite app_nil_r. Qed.

Lemma appends_set_mediaRecorderRef v : appends (set_mediaRecorderRef v).
Proof. intros w. exists []. simpl. now rewrite app_nil_r. Qed.

Lemma appends_set_audioChunksRef v : appends (set_audioChunksRef v).
Proof. intros w. exists []. simpl. now rewrite app_nil_r. Qed.

Lemma appends_set_recorders v : appends (set_recorders v).
Proof. intros w. exists []. simpl. now rewrite app_nil_r. Qed.

Lemma appends_localStorage_set v : appends (localStorage_set v).
Proof. intros w. exists []. simpl. now rewrite app_nil_r. Qed.

Lemma appends_seq a b : appends a -> appends b -> appends (a ;; b).
Proof.
  intros A B w. unfold seq.
  destruct (A w) as [x X], (B (a w)) as [y Y].
  exists (x ++ y). now rewrite Y, X, app_assoc.
Qed.

Lemma appends_reading (A : Type) (ref : World -> A) k :
  (forall a, appends (k a)) -> appends (reading ref k).
Proof. intros K w. apply K. Qed.

Lemma appends_when shown c : appends c -> appends (when shown c).
Proof. destruct shown; simpl; auto using appends_skip. Qed.

Create HintDb appends.
#[local] Hint Resolve appends_skip appends_set appends_pushMessage
  appends_call appends_set_mediaRecorderRef appends_set_audioChunksRef
  appends_localStorage_set appends_seq appends_reading appends_when
  appends_set_recorders : appends.

(** Splits a command along the case distinctions of its handler. *)
Ltac handler_cases :=
  cbv zeta;
  repeat match goal with
         | |- context [match ?x with _ => _ end] => destruct x
         end.

Lemma appends_sendQuery r queryText random now :
  appends (sendQuery r queryText random now).
Proof. unfold sendQuery. handler_cases; auto 10 with appends. Qed.

Lemma appends_sendQuery_settled o random :
  appends (sendQuery_settled o random).
Proof.
  unfold sendQuery_settled, sendQuery_catch.
  handler_cases; auto 10 with appends.
Qed.

Lemma appends_dispatch e r : appends (dispatch e r).
Proof.
  destruct e; unfold dispatch;
    unfold handleSendMessage_settled, handleSendMessage, handleMouseUp,
      handleAskAgoraLearn, handleFileInputChange, handleFileSelect,
      handleUpload, upload_onprogress, handleUpload_settled,
      handleUpload_catch, handleUpload_finally, handleVoiceInput,
      handleVoiceInput_granted, handleVoiceInput_denied, ondataavailable,
      stop_after_timeout, onstop, onstop_settled, onstop_catch,
      exportConversation, conversationId_effect;
    handler_cases;
    repeat match goal with
           | |- appends (seq _ _) => apply appends_seq
           | |- appends (when _ _) => apply appends_when
           | |- appends (reading _ _) =>
               apply appends_reading; intro; handler_cases
           end;
    auto using appends_sendQuery, appends_sendQuery_settled with appends.
Qed.

Lemma appends_step e : appends (step e).
Proof. intros w. apply appends_dispatch. Qed.

Lemma run_app evs1 evs2 w : run (evs1 ++ evs2) w = run evs2 (run evs1 w).
Proof. unfold run. apply fold_left_app. Qed.

Lemma appends_run evs : appends (run evs).
Proof.
  induction evs as [|e evs IH] using rev_ind.
  - apply appends_skip.
  - intros w. rewrite run_app. simpl.
    destruct (IH w) as [x X], (appends_step e (run evs w)) as [y Y].
    exists (x ++ y). now rewrite Y, X, app_assoc.
Qed.

(** C3: when the request of a query fails, by a network error or by a
    status that is not a success, [sendQuery] appends the one assistant
    message with the fixed fallback text; the user message appended before
    the request and every earlier entry of the log stay as they were,
    whatever happened in between. *)
Theorem failed_query_appends_fallback
    r queryText random now w events o random' :
  trim queryText <> [] ->
  request_failed o = true ->
  let w1 := run events (sendQuery r queryText random now w) in
  let w2 := sendQuery_settled o random' w1 in
  messages (state w2)
  = messages (state w1) ++ [assistant_message fallback_text random']
  /\ (exists between,
        messages (state w2)
        = messages (state w) ++ [user_message queryText random now]
          ++ between ++ [assistant_message fallback_text random'])
  /\ (exists text,
        trace w2
        = trace w1
          ++ [Call_ console_error;
              Set_ (setMessages_push
                      (assistant_message fallback_text random'));
              Set_ (setError (Some text));
              Set_ (setIsLoading false)]).
Proof.
  intros Hq Hf w1 w2.
  assert (S : exists err,
             w2 = (sendQuery_catch err random' ;; set (setIsLoading false)) w1).
  { subst w2. unfold sendQuery_settled. destruct o as [err|status parsed].
    - now exists err.
    - simpl in Hf. rewrite Hf. eauto. }
  destruct S as [err ->].
  assert (M : messages (state ((sendQuery_catch err random' ;;
                                set (setIsLoading false)) w1))
              = messages (state w1)
                ++ [assistant_message fallback_text random']).
  { unfold sendQuery_catch, seq, pushMessage. simpl.
    reflexivity. }
  split; [exact M|]. split.
  - destruct (appends_run events (sendQuery r queryText random now w))
      as [between B].
    exists between. rewrite M. fold w1 in B. rewrite B.
    rewrite sendQuery_not_blank by assumption.
    unfold seq, pushMessage, set, call. simpl.
    now rewrite <- !app_assoc.
  - eexists. unfold sendQuery_catch, seq, pushMessage, set, call. simpl.
    rewrite <- !app_assoc. reflexivity.
Qed.

Lemma failed_query_appends_fallback_witness :
  trim (js "What is x?") <> []
  /\ request_failed (fetch_response 500 (inr JNull)) = true
  /\ messages
       (state (sendQuery_settled (fetch_response 500 (inr JNull)) (js "r2")
                 (sendQuery (state sample_world) (js "What is x?") (js "r1")
                    (js "t1") sample_world)))
     = [welcome (js "2024-01-01T00:00:00.000Z");
        user_message (js "What is x?") (js "r1") (js "t1");
        assistant_message fallback_text (js "r2")].
Proof.
  assert (H : trim (js "What is x?") <> []) by (vm_compute; discriminate).
  split; [exact H|]. split; [reflexivity|].
  exact (proj1 (@failed_query_appends_fallback (state sample_world)
                  (js "What is x?") (js "r1") (js "t1") sample_world []
                  (fetch_response 500 (inr JNull)) (js "r2") H eq_refl)).
Defined.

(** *** Upload *)

Lemma upload_id_identifier data id :
  document_identifier data = Some id ->
  truthy (Some id) = true ->
  upload_id data = Some id.
Proof.
  unfold document_identifier, upload_id, coalesce, present.
  destruct (get (get (Some data) (js "file")) (js "id")) as [[]|];
    destruct (get (Some data) (js "docId")) as [[]|];
    destruct (get (Some data) (js "id")) as [[]|];
    simpl; intros [= <-]; try reflexivity; discriminate.
Qed.

Lemma upload_id_missing data :
  document_identifier data = None ->
  truthy (upload_id data) = false.
Proof.
  unfold document_identifier, upload_id, coalesce, present.
  destruct (get (get (Some data) (js "file")) (js "id")) as [[]|];
    destruct (get (Some data) (js "docId")) as [[]|];
    destruct (get (Some data) (js "id")) as [[]|];
    simpl; try discriminate; reflexivity.
Qed.

Lemma upload_name_display data file :
  upload_name data file = display_name data file.
Proof.
  unfold upload_name, display_name, coalesce_with, present.
  destruct (get (get (Some data) (js "file")) (js "name")) as [[]|];
    reflexivity.
Qed.

Lemma upload_id_present data id :
  document_identifier data = Some id -> upload_id data = Some id.
Proof.
  unfold document_identifier, upload_id, coalesce, present.
  destruct (get (get (Some data) (js "file")) (js "id")) as [[]|];
    destruct (get (Some data) (js "docId")) as [[]|];
    destruct (get (Some data) (js "id")) as [[]|];
    simpl; intros [= <-]; reflexivity.
Qed.

(** C4, the claim as worded fails: the response [{"id": 0}] carries an
    identifier under [id], and [{"file": {"id": ""}, "docId": "d1"}]
    carries one under [docId]; for both the guard [if (!id)] throws, the
    document that was active stays and an error is recorded. *)
Lemma falsy_identifier_is_not_installed :
  let zero := JObj [(js "id", JNum (js "0"))] in
  let shadowed := JObj [(js "file", JObj [(js "id", JStr [])]);
                        (js "docId", JStr (js "d1"))] in
  let after data :=
    state (handleUpload_settled {| file_name := js "local.pdf" |}
             (xhr_load 200 [] (Some data)) sample_with_document) in
  document_identifier zero = Some (JNum (js "0"))
  /\ uploadedDoc (after zero) = uploadedDoc (state sample_with_document)
  /\ uploadedDoc (after zero)
     <> Some {| doc_id := JNum (js "0");
                doc_name := display_name zero {| file_name := js "local.pdf" |} |}
  /\ error (after zero) = Some (js "Upload response missing id")
  /\ lookup (js "docId") [(js "file", JObj [(js "id", JStr [])]);
                          (js "docId", JStr (js "d1"))]
     = Some (JStr (js "d1"))
  /\ uploadedDoc (after shadowed) = uploadedDoc (state sample_with_document)
  /\ error (after shadowed) = Some (js "Upload response missing id").
Proof.
  cbv zeta. repeat split. discriminate.
Qed.

(** C4, amended: when the identifier the upload response carries, the
    first present of [file.id], [docId] and [id], is truthy,
    [handleUpload] makes the active document that identifier with the
    display name ([file.name], else the local file's name), whatever
    document was active before; when it is falsy (an empty string, zero,
    [false]) the upload fails, the active document stays and the error
    says that the identifier is missing. *)
Theorem handleUpload_sets_document file status responseText data id w :
  (200 <=? status) && (status <? 300) = true ->
  document_identifier data = Some id ->
  let w' := handleUpload_settled file
              (xhr_load status responseText (Some data)) w in
  if truthy (Some id) then
    uploadedDoc (state w')
    = Some {| doc_id := id; doc_name := display_name data file |}
    /\ error (state w') = error (state w)
    /\ trace w'
       = trace w
         ++ [Set_ (setUploadedDoc
                     (Some {| doc_id := id;
                              doc_name := display_name data file |}));
             Set_ (setUploadedFile None);
             Set_ (setShowSuccess true);
             Call_ (setTimeout hide_success 3500%N);
             Set_ (setIsUploading false);
             Set_ (setUploadProgress None)]
  else
    uploadedDoc (state w') = uploadedDoc (state w)
    /\ error (state w') = Some (js "Upload response missing id").
Proof.
  intros Hs Hid w'. subst w'.
  unfold handleUpload_settled, uploadWithProgress_settled.
  rewrite Hs, (upload_id_present _ Hid), upload_name_display.
  destruct (truthy (Some id)).
  - unfold handleUpload_finally, seq, set, call. simpl.
    repeat split. now rewrite <- !app_assoc.
  - split; reflexivity.
Qed.

Lemma handleUpload_sets_document_witness :
  document_identifier sample_upload = Some (JStr (js "d1"))
  /\ uploadedDoc (state sample_with_document)
     = Some {| doc_id := JStr (js "d0"); doc_name := JStr (js "old.pdf") |}
  /\ uploadedDoc
       (state (handleUpload_settled {| file_name := js "local.pdf" |}
                 (xhr_load 200 [] (Some sample_upload))
                 sample_with_document))
     = Some {| doc_id := JStr (js "d1"); doc_name := JStr (js "a.pdf") |}.
Proof.
  split; [reflexivity|]. split; [reflexivity|].
  exact (proj1 (@handleUpload_sets_document {| file_name := js "local.pdf" |}
                  200 [] sample_upload (JStr (js "d1"))
                  sample_with_document eq_refl eq_refl)).
Defined.

(** C5, the claim as worded fails: the converse response [{}], with
    neither [answer] nor [assistantText] and no string body, does not make
    the query fail; an assistant message with an empty text is appended,
    no error is recorded and the calls made are not those of the failure
    path. *)
Lemma missing_answer_is_not_a_failure :
  let body := JObj [] in
  let w' := sendQuery_settled (fetch_response 200 (inr body)) (js "r2")
              sample_world in
  present (get (Some body) (js "answer")) = None
  /\ present (get (Some body) (js "assistantText")) = None
  /\ is_string (Some body) = false
  /\ messages (state w')
     = messages (state sample_world) ++ [assistant_message [] (js "r2")]
  /\ error (state w') = None
  /\ trace w'
     = [Set_ (setMessages_push (assistant_message [] (js "r2")));
        Set_ (setIsLoading false)]
  /\ ~ exists err,
         w' = (sendQuery_catch err (js "r2") ;; set (setIsLoading false))
                sample_world.
Proof.
  cbv zeta. repeat split.
  intros [err E]. apply (f_equal (fun w => length (trace w))) in E.
  discriminate E.
Qed.

(** C5, amended: an upload response with none of [file.id], [docId] and
    [id] makes the upload fail as a transport error does, through the same
    [catch]: the error is recorded and the active document stays; a
    converse response with neither [answer] nor [assistantText] and no
    string body is no failure: it appends an assistant message with an
    empty text and records no error. *)
Theorem missing_response_fields
    file status responseText data w body random w0 :
  (200 <=? status) && (status <? 300) = true ->
  document_identifier data = None ->
  present (get (Some body) (js "answer")) = None ->
  present (get (Some body) (js "assistantText")) = None ->
  is_string (Some body) = false ->
  let w' := handleUpload_settled file
              (xhr_load status responseText (Some data)) w in
  let w1 := sendQuery_settled (fetch_response 200 (inr body)) random w0 in
  (w' = (handleUpload_catch (Error (js "Upload response missing id")) ;;
         handleUpload_finally) w
   /\ handleUpload_settled file (xhr_load 500 responseText None) w
      = (handleUpload_catch (Error (js "Upload failed: 500")) ;;
         handleUpload_finally) w
   /\ uploadedDoc (state w') = uploadedDoc (state w)
   /\ error (state w') = Some (js "Upload response missing id"))
  /\ (messages (state w1)
      = messages (state w0) ++ [assistant_message [] random]
      /\ error (state w1) = error (state w0)
      /\ trace w1
         = trace w0
           ++ [Set_ (setMessages_push (assistant_message [] random));
               Set_ (setIsLoading false)]).
Proof.
  intros Hs Hid Ha Ht Hb w' w1. split.
  - assert (E : w' = (handleUpload_catch
                        (Error (js "Upload response missing id")) ;;
                      handleUpload_finally) w).
    { subst w'. unfold handleUpload_settled, uploadWithProgress_settled.
      rewrite Hs. pose proof (upload_id_missing _ Hid) as F.
      destruct (upload_id data) as [x|]; [rewrite F|]; reflexivity. }
    split; [exact E|]. split; [reflexivity|]. rewrite E.
    split; reflexivity.
  - assert (A : to_String (converse_answer body) = Some []).
    { rewrite converse_answer_text. unfold answer_text.
      rewrite Ha, Ht. destruct body; try reflexivity. discriminate Hb. }
    subst w1. unfold sendQuery_settled. cbn [ok Nat.leb negb andb].
    change (negb (ok 200)) with false. cbv iota. rewrite A.
    unfold seq, pushMessage, set. simpl.
    repeat split. now rewrite <- app_assoc.
Qed.

Lemma missing_response_fields_witness :
  document_identifier (JObj [(js "ok", JBool true)]) = None
  /\ error
       (state (handleUpload_settled {| file_name := js "local.pdf" |}
                 (xhr_load 200 [] (Some (JObj [(js "ok", JBool true)])))
                 sample_world))
     = Some (js "Upload response missing id")
  /\ messages
       (state (sendQuery_settled (fetch_response 200 (inr (JObj [])))
                 (js "r2") sample_world))
     = [welcome (js "2024-01-01T00:00:00.000Z");
        assistant_message [] (js "r2")].
Proof.
  split; [reflexivity|].
  pose proof (@missing_response_fields {| file_name := js "local.pdf" |}
                200 [] (JObj [(js "ok", JBool true)]) sample_world
                (JObj []) (js "r2") sample_world
                eq_refl eq_refl eq_refl eq_refl eq_refl) as T.
  cbv zeta in T. destruct T as [(_ & _ & _ & E) (M & _)].
  split; [exact E | exact M].
Defined.

(** *** Voice *)

Lemma voice_question_heard j :
  match heard j with
  | Some q => voice_question j = Some (JStr q) /\ trim q <> []
  | None =>
      forall q, voice_question j = Some (JStr q) -> trim q = []
  end.
Proof.
  unfold heard, voice_question, coalesce, present.
  destruct (get (Some j) (js "question")) as [[| | |q| |]|];
    destruct (get (Some j) (js "transcript")) as [[| | |t| |]|];
    simpl; try (intros ? [=]);
    repeat match goal with
           | |- context [trim ?x] => destruct (trim x) eqn:?
           end;
    try (split; [reflexivity | congruence]);
    try (intros ? [= <-]; assumption).
Qed.

(** C8: when the transcription answers with a transcript, taken under
    [question] or else [transcript], that is a string and not blank,
    [onstop] does exactly what [sendQuery] does with it; with a transcript
    that is empty, blank, missing or no string it appends the one
    could-not-hear notice and sends nothing. *)
Theorem voice_transcript_forwarded r status j random now w :
  ok status = true ->
  let w' := onstop_settled r (fetch_response status (inr j)) random now w in
  match heard j with
  | Some question => w' = sendQuery r question random now w
  | None =>
      w' = pushMessage (assistant_message could_not_hear random) w
      /\ messages (state w')
         = messages (state w) ++ [assistant_message could_not_hear random]
      /\ trace w'
         = trace w
           ++ [Set_ (setMessages_push
                       (assistant_message could_not_hear random))]
  end.
Proof.
  intros Hok w'. subst w'. unfold onstop_settled. rewrite Hok. simpl negb.
  cbv iota. pose proof (voice_question_heard j) as V.
  destruct (heard j) as [q|].
  - destruct V as [-> N]. destruct (trim q); [congruence | reflexivity].
  - assert (E : match voice_question j with
                | Some (JStr question) =>
                    match trim question with
                    | [] => pushMessage
                              (assistant_message could_not_hear random)
                    | _ :: _ => sendQuery r question random now
                    end
                | _ => pushMessage (assistant_message could_not_hear random)
                end = pushMessage (assistant_message could_not_hear random)).
    { destruct (voice_question j) as [[| | |q| |]|]; try reflexivity.
      now rewrite (V q eq_refl). }
    unfold assistant_message in E. rewrite E. repeat split.
Qed.

Lemma voice_transcript_forwarded_witness :
  ok 200 = true
  /\ onstop_settled (state sample_world)
       (fetch_response 200
          (inr (JObj [(js "transcript", JStr (js "What is x?"))])))
       (js "r1") (js "t1") sample_world
     = sendQuery (state sample_world) (js "What is x?") (js "r1") (js "t1")
         sample_world
  /\ trace
       (onstop_settled (state sample_world)
          (fetch_response 200 (inr (JObj [(js "question", JStr (js " "))])))
          (js "r1") (js "t1") sample_world)
     = [Set_ (setMessages_push
                (assistant_message could_not_hear (js "r1")))].
Proof.
  split; [reflexivity|]. split.
  - exact (@voice_transcript_forwarded (state sample_world) 200
             (JObj [(js "transcript", JStr (js "What is x?"))])
             (js "r1") (js "t1") sample_world eq_refl).
  - exact (proj2 (proj2
             (@voice_transcript_forwarded (state sample_world) 200
                (JObj [(js "question", JStr (js " "))])
                (js "r1") (js "t1") sample_world eq_refl))).
Defined.

(** *** The message log *)

Lemma run_cons e events w : run (e :: events) w = run events (step e w).
Proof. reflexivity. Qed.

(** C10: the log starts as the one assistant welcome message, every
    operation appends to it and changes nothing before, so the log of a
    reachable state starts with the welcome message and the view never
    takes its no-messages branch. *)
Theorem message_log_never_empty ls now events :
  let w := run events (initial_world ls now) in
  messages (state (initial_world ls now)) = [welcome now]
  /\ role (welcome now) = assistant
  /\ (forall e w0, exists added,
        messages (state (step e w0)) = messages (state w0) ++ added)
  /\ (exists rest, messages (state w) = welcome now :: rest)
  /\ messages (state w) <> []
  /\ message_pane (state w) <> no_messages_yet.
Proof.
  intros w.
  assert (R : exists rest, messages (state w) = welcome now :: rest).
  { destruct (appends_run events (initial_world ls now)) as [rest R].
    exists rest. exact R. }
  split; [reflexivity|]. split; [reflexivity|].
  split; [intros e w0; apply appends_step|].
  split; [exact R|].
  destruct R as [rest R].
  split; [rewrite R; discriminate|].
  unfold message_pane. rewrite R. discriminate.
Qed.

(** *** The conversation identifier *)

Lemma keeps_skip : keeps skip.
Proof. intros w. split; reflexivity. Qed.

Lemma keeps_set u :
  match u with
  | setConversationId _ => True
  | _ => keeps (set u)
  end.
Proof. destruct u; try exact I; intros w; split; reflexivity. Qed.

Lemma keeps_call c : keeps (call c).
Proof. intros w. split; reflexivity. Qed.

Lemma keeps_set_mediaRecorderRef v : keeps (set_mediaRecorderRef v).
Proof. intros w. split; reflexivity. Qed.

Lemma keeps_set_audioChunksRef v : keeps (set_audioChunksRef v).
Proof. intros w. split; reflexivity. Qed.

Lemma keeps_set_recorders v : keeps (set_recorders v).
Proof. intros w. split; reflexivity. Qed.

Lemma keeps_seq a b : keeps a -> keeps b -> keeps (a ;; b).
Proof.
  intros A B w. unfold seq.
  destruct (A w) as [A1 A2], (B (a w)) as [B1 B2].
  split; congruence.
Qed.

Lemma keeps_reading (A : Type) (ref : World -> A) k :
  (forall a, keeps (k a)) -> keeps (reading ref k).
Proof. intros K w. apply K. Qed.

Lemma keeps_when shown c : keeps c -> keeps (when shown c).
Proof. destruct shown; simpl; auto using keeps_skip. Qed.

Ltac keeps_steps :=
  handler_cases;
  repeat match goal with
         | |- keeps (seq _ _) => apply keeps_seq
         | |- keeps (when _ _) => apply keeps_when
         | |- keeps (reading _ _) =>
             apply keeps_reading; intro; handler_cases
         | |- keeps (set ?u) => exact (keeps_set u)
         | |- keeps (pushMessage ?m) => exact (keeps_set (setMessages_push m))
         | |- keeps (call _) => apply keeps_call
         | |- keeps (set_mediaRecorderRef _) => apply keeps_set_mediaRecorderRef
         | |- keeps (set_audioChunksRef _) => apply keeps_set_audioChunksRef
         | |- keeps (set_recorders _) => apply keeps_set_recorders
         | |- keeps skip => apply keeps_skip
         end.

Lemma keeps_sendQuery r queryText random now :
  keeps (sendQuery r queryText random now).
Proof. unfold sendQuery. keeps_steps. Qed.

Lemma keeps_sendQuery_settled o random : keeps (sendQuery_settled o random).
Proof. unfold sendQuery_settled, sendQuery_catch. keeps_steps. Qed.

(** Once the render has an identifier, no event touches it. *)
Lemma keeps_dispatch e r :
  blank (conversationId r) = false -> keeps (dispatch e r).
Proof.
  intros B. destruct e; unfold dispatch, conversationId_effect;
    try rewrite B;
    unfold handleSendMessage_settled, handleSendMessage, handleMouseUp,
      handleAskAgoraLearn, handleFileInputChange, handleFileSelect,
      handleUpload, upload_onprogress, handleUpload_settled,
      handleUpload_catch, handleUpload_finally, handleVoiceInput,
      handleVoiceInput_granted, handleVoiceInput_denied, ondataavailable,
      stop_after_timeout, onstop, onstop_settled, onstop_catch,
      exportConversation, new_recorder, start_recorder, stop_recorder_now;
    keeps_steps;
    auto using keeps_sendQuery, keeps_sendQuery_settled.
Qed.

Lemma keeps_run events : forall w v,
  conversationId (state w) = Some v -> v <> [] ->
  conversationId (state (run events w)) = Some v
  /\ localStorage (run events w) = localStorage w.
Proof.
  induction events as [|e events IH]; intros w v C N.
  - split; [exact C | reflexivity].
  - rewrite run_cons.
    assert (B : blank (conversationId (state w)) = false)
      by (rewrite C; destruct v; [congruence | reflexivity]).
    destruct (@keeps_dispatch e _ B w) as [K1 K2].
    fold (step e w) in K1, K2.
    destruct (IH (step e w) v) as [I1 I2]; [congruence | assumption |].
    split; congruence.
Qed.






End ChatPageFacts.

(* ================================================================= *)
(** ** The renderer on any text *)

Module LayoutFacts.
Import MathSpan Delimited Layout MathSpanFacts.

Local Arguments match_at : simpl never.

Lemma is_dollar_eq c : is_dollar c = true -> c = dollar.
Proof. apply N.eqb_eq. Qed.

Lemma find_single_spec w k :
  find_single w = Some k ->
  exists body rest,
    w = body ++ dollar :: rest /\ length body = k /\ no_dollar body = true.
Proof.
  revert k. induction w as [|c w IH]; intros k; simpl; [discriminate|].
  destruct (is_dollar c) eqn:C.
  - intros [= <-]. exists [], w. apply is_dollar_eq in C. subst c.
    repeat split.
  - destruct (find_single w) as [j|]; [|discriminate].
    intros [= <-]. destruct (IH j eq_refl) as (body & rest & -> & L & B).
    exists (c :: body), rest. repeat split.
    + simpl. now rewrite L.
    + apply no_dollar_cons. now split.
Qed.

Lemma find_single_none w : find_single w = None -> no_dollar w = true.
Proof.
  induction w as [|c w IH]; intros H; [reflexivity|].
  simpl in H. destruct (is_dollar c) eqn:C; [discriminate|].
  destruct (find_single w); [discriminate|].
  apply no_dollar_cons. split; [assumption | now apply IH].
Qed.

Lemma find_double_spec w k :
  find_double w = Some k ->
  exists body rest,
    w = body ++ dollar :: dollar :: rest /\ length body = k.
Proof.
  revert k. induction w as [|c w IH]; intros k; simpl; [discriminate|].
  destruct (is_dollar c && head_is_dollar w) eqn:C.
  - intros [= <-]. apply andb_true_iff in C as [C1 C2].
    destruct w as [|c' w]; [discriminate|]. simpl in C2.
    apply is_dollar_eq in C1, C2. subst. exists [], w. split; reflexivity.
  - destruct (find_double w) as [j|]; [|discriminate].
    intros [= <-]. destruct (IH j eq_refl) as (body & rest & -> & L).
    exists (c :: body), rest. split; [reflexivity | simpl; now rewrite L].
Qed.

(** A match is a pair of delimiters around the body its group captures. *)
Lemma match_at_shape w a :
  match_at w = Some a ->
  exists k body rest,
    w = delimiter k ++ body ++ delimiter k ++ rest
    /\ whole a = delimiter k ++ body ++ delimiter k
    /\ groups_of k body a
    /\ (k = inline_math -> no_dollar body = true).
Proof.
  unfold match_at. destruct (alt_block w) as [b|] eqn:B.
  - intros [= <-]. unfold alt_block in B.
    destruct w as [|x [|y rest0]]; try discriminate.
    destruct (is_dollar x && is_dollar y) eqn:D; [|discriminate].
    apply andb_true_iff in D as [D1 D2].
    apply is_dollar_eq in D1, D2. subst x y.
    destruct (find_double rest0) as [k|] eqn:F; [|discriminate].
    injection B as <-.
    destruct (find_double_spec _ F) as (body & rest & -> & L).
    exists block_math, body, rest. subst k. cbn [whole group1 group2 groups_of].
    rewrite firstn_exact. repeat split; try discriminate.
    apply (firstn_wrapped [dollar; dollar] body [dollar; dollar] rest).
    simpl. rewrite length_app. simpl. lia.
  - unfold alt_inline. destruct w as [|x rest0]; [discriminate|].
    destruct (is_dollar x) eqn:D; [|discriminate].
    apply is_dollar_eq in D. subst x.
    destruct (find_single rest0) as [k|] eqn:F; [|discriminate].
    intros [= <-].
    destruct (find_single_spec _ F) as (body & rest & -> & L & N).
    exists inline_math, body, rest. subst k. cbn [whole group1 group2 groups_of].
    rewrite firstn_exact. repeat split; trivial.
    apply (firstn_wrapped [dollar] body [dollar] rest).
    simpl. rewrite length_app. simpl. lia.
Qed.

Lemma match_at_head w a :
  match_at w = Some a -> exists rest, w = dollar :: rest.
Proof.
  intros H. destruct (match_at_shape _ H) as ([] & body & rest & -> & _);
    simpl; eauto.
Qed.

(** A dollar with another dollar after it starts a match. *)
Lemma match_at_two_dollars t rest :
  no_dollar t = true -> match_at (dollar :: t ++ dollar :: rest) <> None.
Proof.
  intros T. unfold match_at. destruct (alt_block _); [discriminate|].
  unfold alt_inline. change (is_dollar dollar) with true. cbv iota.
  now rewrite find_single_app.
Qed.

(** Where the search stops: after a stretch without dollar. *)
Lemma search_shape w i m :
  search w i = Some m ->
  exists skipped rest,
    w = skipped ++ rest /\ no_dollar skipped = true
    /\ index m = i + length skipped /\ match_at rest = Some (groups m).
Proof.
  revert i. induction w as [|c w IH]; intros i.
  - rewrite search_nil. discriminate.
  - simpl. destruct (match_at (c :: w)) as [a|] eqn:E.
    + intros [= <-]. exists [], (c :: w). simpl. rewrite Nat.add_0_r.
      repeat split. exact E.
    + intros H. destruct (IH _ H) as (skipped & rest & -> & N & I & M).
      exists (c :: skipped), rest. split; [reflexivity|].
      split; [|split; [simpl; lia | exact M]].
      apply no_dollar_cons. split; [|exact N].
      destruct (is_dollar c) eqn:C; [|reflexivity].
      apply is_dollar_eq in C. subst c.
      destruct (match_at_head _ M) as [rest' ->].
      now apply match_at_two_dollars in E.
Qed.

Lemma count_dollar_cons c t :
  count_dollar (c :: t)
  = (if is_dollar c then 1 else 0) + count_dollar t.
Proof. unfold count_dollar. simpl. now destruct (is_dollar c). Qed.

Lemma count_dollar_no_dollar t :
  count_dollar t = 0 <-> no_dollar t = true.
Proof.
  induction t as [|c t IH]; [now split|].
  rewrite count_dollar_cons, no_dollar_cons.
  destruct (is_dollar c); simpl; [split; [lia | intros [? _]; discriminate]|].
  rewrite IH. tauto.
Qed.

(** The search fails exactly on a text with at most one dollar. *)
Lemma search_none w i : search w i = None <-> count_dollar w <= 1.
Proof.
  revert i. induction w as [|c w IH]; intros i.
  - split; [intros _; unfold count_dollar; simpl; lia | reflexivity].
  - rewrite count_dollar_cons. simpl.
    destruct (is_dollar c) eqn:C.
    + apply is_dollar_eq in C. subst c. split.
      * destruct (match_at (dollar :: w)) eqn:E; [discriminate|]. intros _.
        assert (N : no_dollar w = true).
        { apply find_single_none. unfold match_at in E.
          destruct (alt_block (dollar :: w)); [discriminate|].
          unfold alt_inline in E. change (is_dollar dollar) with true in E.
          destruct (find_single w); [discriminate | reflexivity]. }
        apply count_dollar_no_dollar in N. lia.
      * intros L. assert (N : no_dollar w = true)
          by (apply count_dollar_no_dollar; lia).
        assert (E : match_at (dollar :: w) = None).
        { destruct (match_at (dollar :: w)) as [a|] eqn:E; [|reflexivity].
          destruct (match_at_shape _ E) as (k & body & rest & W & _).
          exfalso. assert (X : exists u v, w = u ++ dollar :: v).
          { destruct k; simpl in W; injection W as W.
            - exists [], (body ++ dollar :: dollar :: rest). exact W.
            - exists body, rest. exact W. }
          destruct X as (u & v & ->). rewrite no_dollar_app in N.
          apply andb_true_iff in N as [_ N]. discriminate N. }
        rewrite E. apply IH. apply count_dollar_no_dollar in N. lia.
    + rewrite match_at_not_dollar by assumption. simpl. apply IH.
Qed.

(** *** One pass of the loop *)

Lemma loop_body_exact content li t rest mi els a k body :
  skipn li content = t ++ rest ->
  groups_of k body a ->
  loop_body content li mi els {| index := li + length t; groups := a |}
  = els ++ text_span (key_text mi) t ++ math_span k mi body.
Proof.
  intros Sk G. unfold loop_body, slice. cbn [index groups].
  replace (li + length t - li) with (length t) by lia.
  rewrite Sk, firstn_exact.
  assert (E : (if li <? li + length t
               then els ++ [span (key_text mi) t] else els)
              = els ++ text_span (key_text mi) t).
  { destruct t as [|c t]; simpl.
    - rewrite Nat.add_0_r, Nat.ltb_irrefl. now rewrite app_nil_r.
    - destruct (Nat.ltb_spec li (li + S (length t))); [reflexivity | lia]. }
  rewrite E. clear E.
  destruct k; destruct G as [-> ->]; destruct body as [|c body];
    cbn [truthy_group math_span]; rewrite ?app_nil_r, <- ?app_assoc;
    reflexivity.
Qed.

Lemma skipn_two (A : Type) (a b : list A) rest :
  skipn (length a + length b) (a ++ b ++ rest) = rest.
Proof.
  rewrite app_assoc, <- length_app. apply skipn_exact.
Qed.

(** *** The layout of any text

    Whatever the text, the loop splits what follows [lastIndex] into
    matches, each after a stretch without dollar, and a rest with at most
    one dollar; it adds the elements of that layout. *)
Lemma scan_layout fuel : forall content li mi els,
  li <= length content ->
  length content - li <= fuel ->
  exists items tail,
    skipn li content = layout_text items tail
    /\ forallb scanned_item items = true
    /\ count_dollar tail <= 1
    /\ option_map (finish content) (scan fuel content li mi els)
       = Some (els ++ layout_spans mi items tail).
Proof.
  induction fuel as [|fuel IH]; intros content li mi els L F;
    destruct (exec content li) as [m|] eqn:E.
  - apply exec_bounds in E. lia.
  - exists [], (skipn li content). split; [reflexivity|].
    split; [reflexivity|]. split; [now apply (search_none _ li)|].
    rewrite scan_done by assumption. simpl. f_equal.
    destruct (Nat.ltb_spec li (length content)) as [Lt|Ge].
    + unfold slice_from. destruct (skipn li content) eqn:Sk; [|reflexivity].
      apply (f_equal (@length _)) in Sk. rewrite length_skipn in Sk.
      simpl in Sk. lia.
    + rewrite skipn_all2 by lia. simpl. now rewrite app_nil_r.
  - pose proof (exec_bounds _ _ E) as [B1 B2].
    pose proof E as X. unfold exec in X.
    destruct (search_shape _ _ X) as (skipped & rest0 & Sk & N & I & M).
    destruct (match_at_shape _ M) as (k & body & rest & -> & W & G & K).
    destruct m as [idx a]. cbn [index groups] in *. subst idx.
    assert (End : end_index {| index := li + length skipped; groups := a |}
                  = li + (length skipped
                          + length (delimiter k ++ body ++ delimiter k))).
    { unfold end_index. cbn [index groups]. rewrite W. lia. }
    rewrite (@scan_step fuel _ _ mi els _ E).
    rewrite (@loop_body_exact content li skipped
               (delimiter k ++ body ++ delimiter k ++ rest) mi els a k body Sk G).
    destruct (IH content
                (end_index {| index := li + length skipped; groups := a |})
                (Datatypes.S mi)
                (els ++ text_span (key_text mi) skipped
                 ++ math_span k mi body))
      as (items & tail & Sk' & N' & C' & R'); [exact B2 | lia |].
    exists ({| before := skipped; kind := k; math_body := body |} :: items),
      tail.
    split.
    { rewrite Sk. rewrite End, Nat.add_comm, <- skipn_skipn, Sk in Sk'.
      replace (skipped ++ delimiter k ++ body ++ delimiter k ++ rest)
        with (skipped ++ (delimiter k ++ body ++ delimiter k) ++ rest) in Sk'
        by now rewrite <- !app_assoc.
      rewrite skipn_two in Sk'. rewrite Sk'.
      unfold layout_text, item_text. simpl.
      now rewrite <- !app_assoc. }
    split.
    { simpl. rewrite N'. unfold scanned_item. simpl. rewrite N.
      destruct k; [reflexivity|]. now rewrite K. }
    split; [exact C'|].
    rewrite R'. simpl. now rewrite <- !app_assoc.
  - exists [], (skipn li content). split; [reflexivity|].
    split; [reflexivity|]. split; [now apply (search_none _ li)|].
    rewrite scan_done by assumption. simpl. f_equal.
    destruct (Nat.ltb_spec li (length content)) as [Lt|Ge].
    + unfold slice_from. destruct (skipn li content) eqn:Sk; [|reflexivity].
      apply (f_equal (@length _)) in Sk. rewrite length_skipn in Sk.
      simpl in Sk. lia.
    + rewrite skipn_all2 by lia. simpl. now rewrite app_nil_r.
Qed.

Lemma render_layout content :
  exists items tail,
    content = layout_text items tail
    /\ forallb scanned_item items = true
    /\ count_dollar tail <= 1
    /\ renderMathInline content = Some (layout_spans 0 items tail).
Proof.
  destruct (@scan_layout (length content) content 0 0 [])
    as (items & tail & Sk & N & C & R); [lia | lia |].
  exists items, tail. repeat split; assumption.
Qed.

(** *** What the elements of a layout hold *)

Lemma text_span_text key t : rendered_text (text_span key t) = t.
Proof.
  destruct t; [reflexivity|]. unfold rendered_text. simpl.
  now rewrite app_nil_r.
Qed.

Lemma math_span_text k i m : rendered_text (math_span k i m) = m.
Proof.
  destruct m; [reflexivity|]. unfold rendered_text.
  destruct k; simpl; now rewrite app_nil_r.
Qed.

Lemma layout_spans_text i items tail :
  rendered_text (layout_spans i items tail)
  = concat (map (fun it => before it ++ math_body it) items) ++ tail.
Proof.
  revert i. induction items as [|it items IH]; intros i; simpl.
  - apply text_span_text.
  - rewrite !rendered_text_app, text_span_text, math_span_text, IH.
    now rewrite <- !app_assoc.
Qed.

Lemma filter_delimiter k :
  filter (fun c => negb (is_dollar c)) (delimiter k) = [].
Proof. destruct k; reflexivity. Qed.

Lemma layout_text_filter items tail :
  filter (fun c => negb (is_dollar c)) (layout_text items tail)
  = filter (fun c => negb (is_dollar c))
      (concat (map (fun it => before it ++ math_body it) items) ++ tail).
Proof.
  unfold layout_text. rewrite !filter_app. f_equal.
  induction items as [|it items IH]; [reflexivity|].
  simpl. rewrite !filter_app, IH. f_equal.
  unfold item_text. rewrite !filter_app, filter_delimiter.
  simpl. now rewrite app_nil_r.
Qed.

Lemma layout_text_length items tail :
  length (concat (map (fun it => before it ++ math_body it) items) ++ tail)
  <= length (layout_text items tail).
Proof.
  unfold layout_text. rewrite !length_app. apply Nat.add_le_mono_r.
  induction items as [|it items IH]; [reflexivity|].
  simpl. rewrite !length_app.
  assert (length (before it) + length (math_body it)
          <= length (item_text it))
    by (unfold item_text; rewrite !length_app; lia).
  lia.
Qed.

(** X2: whatever the text, the renderer returns, and its spans hold, in
    order, every code unit of the text that is no dollar: nothing but
    dollars is dropped, nothing is added or moved. *)
Theorem renderMathInline_keeps_text content :
  exists elements,
    renderMathInline content = Some elements
    /\ filter (fun c => negb (is_dollar c)) (rendered_text elements)
       = filter (fun c => negb (is_dollar c)) content
    /\ length (rendered_text elements) <= length content.
Proof.
  destruct (render_layout content) as (items & tail & -> & _ & _ & R).
  exists (layout_spans 0 items tail). split; [exact R|].
  rewrite layout_spans_text. split.
  - symmetry. apply layout_text_filter.
  - apply layout_text_length.
Qed.

Lemma layout_spans_not_empty i items tail :
  Forall (fun e => node_text e <> []) (layout_spans i items tail).
Proof.
  revert i. induction items as [|it items IH]; intros i; simpl.
  - destruct tail; constructor; [discriminate | constructor].
  - apply Forall_app; split.
    + destruct (before it); constructor; [discriminate | constructor].
    + apply Forall_app; split; [|apply IH].
      destruct (math_body it), (kind it); constructor;
        try discriminate; constructor.
Qed.

(** X3: the renderer never produces an empty span: every text span and
    every math element holds at least one code unit. *)
Theorem renderMathInline_no_empty_span content :
  exists elements,
    renderMathInline content = Some elements
    /\ Forall (fun e => node_text e <> []) elements.
Proof.
  destruct (render_layout content) as (items & tail & _ & _ & _ & R).
  exists (layout_spans 0 items tail). split; [exact R|].
  apply layout_spans_not_empty.
Qed.

Lemma layout_spans_keys i items tail :
  Forall (key_from i) (map node_key (layout_spans i items tail))
  /\ NoDup (map node_key (layout_spans i items tail)).
Proof.
  revert i. induction items as [|it items IH]; intros i; simpl.
  - destruct tail; simpl; split; repeat constructor. intros [].
  - destruct (IH (S i)) as [F D].
    assert (F' : Forall (key_from i)
                   (map node_key (layout_spans (S i) items tail))).
    { eapply Forall_impl; [|exact F]. intros [] H; simpl in *; lia. }
    assert (Nt : ~ In (key_text i)
                   (map node_key (layout_spans (S i) items tail))).
    { intros H. rewrite Forall_forall in F. apply F in H. simpl in H. lia. }
    assert (Nb : ~ In (key_block i)
                   (map node_key (layout_spans (S i) items tail))).
    { intros H. rewrite Forall_forall in F. apply F in H. simpl in H. lia. }
    assert (Ni : ~ In (key_inline i)
                   (map node_key (layout_spans (S i) items tail))).
    { intros H. rewrite Forall_forall in F. apply F in H. simpl in H. lia. }
    destruct (before it), (math_body it), (kind it); simpl; split;
      repeat constructor; simpl; trivial;
      try (intros [H|H]; [discriminate H | contradiction]);
      try assumption.
Qed.

(** X4: the keys of the produced elements are pairwise different, and
    [text-end] can only be the key of the last one. *)
Theorem renderMathInline_keys_unique content :
  exists elements,
    renderMathInline content = Some elements
    /\ NoDup (map node_key elements)
    /\ forall before_ e after_,
         elements = before_ ++ e :: after_ ->
         node_key e = key_text_end -> after_ = [].
Proof.
  destruct (render_layout content) as (items & tail & _ & _ & _ & R).
  exists (layout_spans 0 items tail). split; [exact R|].
  split; [apply layout_spans_keys|].
  generalize 0. clear R. induction items as [|it items IH]; intros i.
  - simpl. destruct tail; simpl; intros [|x l] e after_ E K;
      try discriminate; try (destruct l; discriminate).
    now injection E.
  - intros before_ e after_ E K. simpl in E.
    assert (Step : forall pre,
               Forall (fun x => node_key x <> key_text_end) pre ->
               forall b, pre ++ layout_spans (S i) items tail
                         = b ++ e :: after_ -> after_ = []).
    { induction pre as [|x pre IHp]; intros Fp b Eb.
      - simpl in Eb. eapply IH; eassumption.
      - inversion Fp; subst. destruct b as [|y b].
        + simpl in Eb. injection Eb as -> _. contradiction.
        + simpl in Eb. injection Eb as _ Eb. eapply IHp; eassumption. }
    rewrite app_assoc in E. eapply Step; [|exact E].
    apply Forall_app; split.
    + destruct (before it); repeat constructor. discriminate.
    + destruct (math_body it), (kind it); repeat constructor; discriminate.
Qed.

Lemma layout_spans_settled i items tail :
  forallb scanned_item items = true ->
  count_dollar tail <= 1 ->
  forallb settled_node (layout_spans i items tail) = true.
Proof.
  revert i. induction items as [|it items IH]; intros i N C; simpl.
  - destruct tail; [reflexivity|]. simpl. rewrite andb_true_r.
    now apply Nat.leb_le.
  - simpl in N. apply andb_true_iff in N as [Ni N].
    unfold scanned_item in Ni. apply andb_true_iff in Ni as [Nb Nm].
    rewrite !forallb_app, IH by assumption. rewrite andb_true_r.
    apply andb_true_iff; split.
    + revert Nb. destruct (before it); [reflexivity|].
      intros Nb. simpl text_span. cbn [forallb settled_node].
      now rewrite Nb.
    + revert Nm. destruct (math_body it), (kind it); try reflexivity.
      intros Nm. cbn [math_span forallb settled_node]. now rewrite Nm.
Qed.

(** X6: dollars survive only where a delimiter was left unmatched: a
    text span before a match and an inline math body hold no dollar, and
    the text span after the last match holds at most one. *)
Theorem renderMathInline_dollars content :
  exists elements,
    renderMathInline content = Some elements
    /\ forallb settled_node elements = true.
Proof.
  destruct (render_layout content) as (items & tail & _ & N & C & R).
  exists (layout_spans 0 items tail). split; [exact R|].
  now apply layout_spans_settled.
Qed.

(** *** Texts written as a layout *)

Lemma scan_finish fuel content li mi els :
  exec content li = None ->
  option_map (finish content) (scan fuel content li mi els)
  = Some (els ++ text_span key_text_end (skipn li content)).
Proof.
  intros E. rewrite scan_done by assumption. simpl. f_equal.
  destruct (Nat.ltb_spec li (length content)) as [Lt|Ge].
  - unfold slice_from. destruct (skipn li content) eqn:Sk; [|reflexivity].
    apply (f_equal (@length _)) in Sk. rewrite length_skipn in Sk.
    simpl in Sk. lia.
  - rewrite skipn_all2 by lia. simpl. now rewrite app_nil_r.
Qed.

Lemma match_at_typeset k body rest :
  no_dollar body = true -> body <> [] ->
  exists a,
    match_at (delimiter k ++ body ++ delimiter k ++ rest) = Some a
    /\ whole a = delimiter k ++ body ++ delimiter k
    /\ groups_of k body a.
Proof.
  intros N E. destruct k; eexists.
  - split; [apply (@match_at_block body rest N)|]. split; [reflexivity|].
    split; reflexivity.
  - split; [apply (@match_at_inline body rest N E)|]. split; [reflexivity|].
    split; reflexivity.
Qed.

Lemma scan_typeset tail items :
  forallb typeset_item items = true ->
  no_dollar tail = true ->
  forall fuel content li mi els,
    skipn li content = layout_text items tail ->
    length content - li <= fuel ->
    option_map (finish content) (scan fuel content li mi els)
    = Some (els ++ layout_spans mi items tail).
Proof.
  intros T N. induction items as [|it items IH];
    intros fuel content li mi els Sk F.
  - change (layout_text [] tail) with tail in Sk.
    rewrite scan_finish, Sk; [reflexivity|].
    unfold exec. rewrite Sk. apply search_none.
    pose proof (proj2 (count_dollar_no_dollar tail) N). lia.
  - simpl in T. apply andb_true_iff in T as [Ti T].
    unfold typeset_item in Ti.
    apply andb_true_iff in Ti as [Ti Te].
    apply andb_true_iff in Ti as [Tb Tm].
    assert (Ne : math_body it <> [])
      by (destruct (math_body it); [discriminate | congruence]).
    assert (Sk' : skipn li content
                  = before it
                    ++ delimiter (kind it) ++ math_body it
                    ++ delimiter (kind it) ++ layout_text items tail).
    { rewrite Sk. unfold layout_text, item_text. simpl.
      now rewrite <- !app_assoc. }
    destruct (@match_at_typeset (kind it) (math_body it)
                (layout_text items tail) Tm Ne) as (a & M & W & G).
    assert (E : exec content li
                = Some {| index := li + length (before it); groups := a |}).
    { unfold exec. rewrite Sk', search_no_dollar by assumption.
      now apply search_hit. }
    pose proof (exec_bounds _ _ E) as [B1 B2].
    destruct fuel as [|fuel]; [lia|].
    rewrite (@scan_step fuel _ _ mi els _ E).
    rewrite (@loop_body_exact content li (before it) _ mi els a
               (kind it) (math_body it) Sk' G).
    rewrite IH; [simpl; now rewrite <- !app_assoc | exact T | | lia].
    unfold end_index. cbn [index groups]. rewrite W.
    rewrite <- Nat.add_assoc, Nat.add_comm, <- skipn_skipn, Sk'.
    replace (before it ++ delimiter (kind it) ++ math_body it
             ++ delimiter (kind it) ++ layout_text items tail)
      with (before it
            ++ (delimiter (kind it) ++ math_body it ++ delimiter (kind it))
            ++ layout_text items tail)
      by now rewrite <- !app_assoc.
    apply skipn_two.
Qed.

(** X1: a text written as math segments with non-empty bodies, each
    after a stretch of plain text, and a plain rest, none of them with a
    dollar, is rendered as exactly these pieces: a text span for each
    non-empty stretch, a block or inline element for each segment
    according to its delimiter, numbered in order, and a last text span
    for the rest. *)
Theorem typeset_text_rendered items tail :
  forallb typeset_item items = true ->
  no_dollar tail = true ->
  renderMathInline (layout_text items tail)
  = Some (layout_spans 0 items tail).
Proof.
  intros T N. unfold renderMathInline.
  apply (@scan_typeset tail items T N); [reflexivity | lia].
Qed.

Lemma typeset_text_rendered_witness :
  forallb typeset_item
    [{| before := js "Area "; kind := inline_math; math_body := js "x^2" |};
     {| before := []; kind := block_math; math_body := js "y" |}] = true
  /\ renderMathInline (js "Area $x^2$$$y$$.")
     = Some [span (key_text 0) (js "Area ");
             InlineMath (key_inline 0) (js "x^2");
             BlockMath (key_block 1) (js "y");
             span key_text_end (js ".")].
Proof.
  split; [reflexivity|].
  exact (@typeset_text_rendered
           [{| before := js "Area "; kind := inline_math;
               math_body := js "x^2" |};
            {| before := []; kind := block_math; math_body := js "y" |}]
           (js ".") eq_refl eq_refl).
Defined.

(** X5: a text with a single dollar has an unterminated delimiter and no
    match: it is rendered as one text span holding the whole text, dollar
    included. *)
Theorem lone_dollar_is_literal content :
  count_dollar content = 1 ->
  renderMathInline content = Some [span key_text_end content].
Proof.
  intros C. unfold renderMathInline.
  rewrite scan_finish.
  - simpl. destruct content; [discriminate C | reflexivity].
  - unfold exec. simpl. apply search_none. lia.
Qed.

Lemma lone_dollar_is_literal_witness :
  count_dollar (js "costs $5") = 1
  /\ renderMathInline (js "costs $5")
     = Some [span key_text_end (js "costs $5")].
Proof.
  split; [reflexivity|].
  exact (@lone_dollar_is_literal (js "costs $5") eq_refl).
Defined.

End LayoutFacts.

(* ================================================================= *)
(** ** The handlers of the chat page, outcome by outcome *)

Module HandlerFacts.
Import ChatPage Wording Invariants ChatPageFacts.
Local Open Scope cmd_scope.

(** *** Blank texts *)

Lemma trim_start_nil s :
  trim_start s = [] <-> forallb is_white_space s = true.
Proof.
  induction s as [|c s IH]; simpl; [tauto|].
  destruct (is_white_space c); simpl; [exact IH|].
  split; discriminate.
Qed.

Lemma trim_start_head s c rest :
  trim_start s = c :: rest -> is_white_space c = false.
Proof.
  induction s as [|x s IH]; simpl; [discriminate|].
  destruct (is_white_space x) eqn:X; [exact IH|].
  intros [= <- _]. exact X.
Qed.

(** [trim] leaves nothing exactly when every code unit is white space. *)
Lemma trim_nil s : trim s = [] <-> forallb is_white_space s = true.
Proof.
  unfold trim. split.
  - intros H. apply (f_equal (@rev _)) in H. rewrite rev_involutive in H.
    simpl in H. apply trim_start_nil in H.
    rewrite forallb_forall in H.
    destruct (trim_start s) as [|c rest] eqn:T.
    + now apply trim_start_nil.
    + apply trim_start_head in T.
      rewrite (H c) in T; [discriminate|].
      apply in_rev. rewrite rev_involutive. now left.
  - intros H. apply trim_start_nil in H. now rewrite H.
Qed.

(** X7: [sendQuery] does nothing exactly when the query holds nothing
    but white space; any other query makes calls. *)
Theorem sendQuery_noop_iff_white_space r queryText random now w :
  sendQuery r queryText random now w = w
  <-> forallb is_white_space queryText = true.
Proof.
  rewrite <- trim_nil. split.
  - intros H. destruct (trim queryText) as [|c t] eqn:T; [reflexivity|].
    rewrite sendQuery_not_blank in H by (rewrite T; discriminate).
    apply (f_equal (fun x => length (trace x))) in H.
    unfold seq, pushMessage, set, call in H. simpl in H.
    rewrite !length_app in H. simpl in H. lia.
  - intros H. unfold sendQuery. now rewrite H.
Qed.

(** *** Settling a query *)

(** X8: however the request of a query ends, [sendQuery] appends exactly
    one assistant message and turns the loading flag off.  The message is
    the answer when the status is a success, the body could be read and
    [String] converts the answer, and then the error is left alone; in
    every other case, a success status with an unreadable body or with an
    answer on which [String] throws included, it is the fallback text and
    an error is recorded. *)
Theorem sendQuery_settles_with_one_message o random w :
  let w' := sendQuery_settled o random w in
  let failed :=
    messages (state w')
    = messages (state w) ++ [assistant_message fallback_text random]
    /\ exists text, error (state w') = Some text in
  isLoading (state w') = false
  /\ match answered o with
     | Some body =>
         match to_String (converse_answer body) with
         | Some text =>
             messages (state w')
             = messages (state w) ++ [assistant_message text random]
             /\ error (state w') = error (state w)
         | None => failed
         end
     | None => failed
     end.
Proof.
  unfold sendQuery_settled, answered.
  destruct o as [err|status [err|body]]; cbv zeta;
    try destruct (ok status); cbn [negb];
    try destruct (to_String (converse_answer body));
    simpl; repeat split; eauto.
Qed.

Lemma sendQuery_settled_one o random w :
  isLoading (state (sendQuery_settled o random w)) = false
  /\ exists text,
       messages (state (sendQuery_settled o random w))
       = messages (state w) ++ [assistant_message text random].
Proof.
  unfold sendQuery_settled.
  destruct o as [err|status [err|body]];
    try destruct (ok status); cbn [negb];
    try destruct (to_String (converse_answer body)); simpl;
    (split; [reflexivity | eexists; reflexivity]).
Qed.

(** What the send button runs when it is enabled. *)
Lemma step_send_not_blank w random now :
  isLoading (state w) = false ->
  trim (inputValue (state w)) <> [] ->
  step (ev_send random now) w
  = sendQuery (state w) (inputValue (state w)) random now w.
Proof.
  intros L T. unfold step, dispatch, handleSendMessage. rewrite L. simpl.
  destruct (trim (inputValue (state w))); [congruence | reflexivity].
Qed.

(** X9: a second send before the first has settled is ignored: the
    loading flag set by the first disables the input and the button. *)
Theorem second_send_is_ignored w random now random' now' :
  step (ev_send random' now') (step (ev_send random now) w)
  = step (ev_send random now) w.
Proof.
  destruct (isLoading (state w)) eqn:L.
  - unfold step, dispatch. rewrite L. simpl. unfold skip. now rewrite L.
  - destruct (trim (inputValue (state w))) as [|c t] eqn:T.
    + assert (E : forall a b, step (ev_send a b) w = w).
      { intros a b. unfold step, dispatch, handleSendMessage.
        rewrite L, T. reflexivity. }
      now rewrite !E.
    + rewrite (@step_send_not_blank w random now L)
        by (rewrite T; discriminate).
      rewrite sendQuery_not_blank by (rewrite T; discriminate).
      reflexivity.
Qed.

(** X10: sending the text of the input and letting the request settle
    appends the user message and one assistant message after it, empties
    the input and turns the loading flag off, whatever the outcome. *)
Theorem send_round_trip w random now o random' :
  isLoading (state w) = false ->
  trim (inputValue (state w)) <> [] ->
  let w' := run [ev_send random now; ev_send_settled o random'] w in
  (exists text,
     messages (state w')
     = messages (state w)
       ++ [user_message (inputValue (state w)) random now;
           assistant_message text random'])
  /\ inputValue (state w') = []
  /\ isLoading (state w') = false.
Proof.
  intros L T w'. subst w'.
  change (run [ev_send random now; ev_send_settled o random'] w)
    with (step (ev_send_settled o random') (step (ev_send random now) w)).
  rewrite (@step_send_not_blank w random now L T).
  rewrite sendQuery_not_blank by assumption.
  unfold step, dispatch, handleSendMessage_settled.
  set (w1 := (set (setIsLoading true) ;; _) w).
  assert (M1 : messages (state w1)
               = messages (state w)
                 ++ [user_message (inputValue (state w)) random now])
    by reflexivity.
  destruct (sendQuery_settled_one o random' w1) as (Lf & text & Mt).
  split; [|split].
  - exists text. unfold seq at 1. rewrite messages_set, app_nil_r, Mt, M1.
    now rewrite <- app_assoc.
  - reflexivity.
  - unfold seq at 1. exact Lf.
Qed.

Lemma send_round_trip_witness :
  let w := set (setInputValue (js "What is x?")) sample_world in
  trim (inputValue (state w)) <> []
  /\ inputValue
       (state (run [ev_send (js "r1") (js "t1");
                    ev_send_settled (fetch_rejected (Error (js "offline")))
                      (js "r2")] w)) = []
  /\ isLoading
       (state (run [ev_send (js "r1") (js "t1");
                    ev_send_settled (fetch_rejected (Error (js "offline")))
                      (js "r2")] w)) = false.
Proof.
  intros w.
  assert (T : trim (inputValue (state w)) <> [])
    by (vm_compute; discriminate).
  split; [exact T|].
  exact (proj2 (@send_round_trip w (js "r1") (js "t1")
                  (fetch_rejected (Error (js "offline"))) (js "r2")
                  eq_refl T)).
Defined.

(** *** Settling an upload *)

(** X11: however an upload ends, the uploading flag and the progress are
    reset and the chat log is not touched; and either a document with a
    truthy identifier becomes the active one, the selected file is
    dropped and nothing is reported, or the active document and the
    selected file stay as they were and an error is recorded. *)
Theorem upload_settles_one_way_or_the_other file o w :
  let w' := handleUpload_settled file o w in
  isUploading (state w') = false
  /\ uploadProgress (state w') = None
  /\ messages (state w') = messages (state w)
  /\ ((exists d,
         uploadedDoc (state w') = Some d
         /\ truthy (Some (doc_id d)) = true
         /\ uploadedFile (state w') = None
         /\ showSuccess (state w') = true
         /\ error (state w') = error (state w))
      \/ (uploadedDoc (state w') = uploadedDoc (state w)
          /\ uploadedFile (state w') = uploadedFile (state w)
          /\ showSuccess (state w') = showSuccess (state w)
          /\ exists text, error (state w') = Some text)).
Proof.
  unfold handleUpload_settled. cbv zeta.
  destruct (uploadWithProgress_settled o) as [err|data].
  - repeat split. right. repeat split. eexists. reflexivity.
  - destruct (upload_id data) as [id|] eqn:I.
    + destruct (truthy (Some id)) eqn:T.
      * repeat split. left. eexists. repeat split. exact T.
      * repeat split. right. repeat split. eexists. reflexivity.
    + repeat split. right. repeat split. eexists. reflexivity.
Qed.

(** X12: what the error says when an upload fails: the status when it
    is outside 200-299, a network error when the transfer could not
    complete, and a missing identifier when the status is a success but
    the body is no JSON (the raw text has no [id]) or holds an identifier
    that is falsy. *)
Theorem upload_error_texts file w status responseText parsed data :
  let failed o := error (state (handleUpload_settled file o w)) in
  ((200 <=? status) && (status <? 300) = false ->
   failed (xhr_load status responseText parsed)
   = Some (js "Upload failed: " ++ of_nat status))
  /\ failed xhr_error = Some (js "Upload network error")
  /\ ((200 <=? status) && (status <? 300) = true ->
      failed (xhr_load status responseText None)
      = Some (js "Upload response missing id"))
  /\ ((200 <=? status) && (status <? 300) = true ->
      truthy (upload_id data) = false ->
      failed (xhr_load status responseText (Some data))
      = Some (js "Upload response missing id")).
Proof.
  cbv zeta. unfold handleUpload_settled, uploadWithProgress_settled.
  split; [intros ->; reflexivity|]. split; [reflexivity|].
  split; [intros ->; reflexivity|].
  intros -> F. destruct (upload_id data) as [id|]; [rewrite F|];
    reflexivity.
Qed.

Lemma upload_error_texts_witness :
  error
    (state (handleUpload_settled {| file_name := js "local.pdf" |}
              (xhr_load 500 (js "oops") None) sample_world))
  = Some (js "Upload failed: 500")
  /\ error
       (state (handleUpload_settled {| file_name := js "local.pdf" |}
                 (xhr_load 200 (js "<html>") None) sample_world))
     = Some (js "Upload response missing id")
  /\ error
       (state (handleUpload_settled {| file_name := js "local.pdf" |}
                 (xhr_load 200 []
                    (Some (JObj [(js "file", JObj [(js "id", JStr [])]);
                                 (js "docId", JStr (js "d1"))])))
                 sample_world))
     = Some (js "Upload response missing id").
Proof.
  pose proof (@upload_error_texts {| file_name := js "local.pdf" |}
                sample_world 500 (js "oops") None JNull) as A.
  pose proof (@upload_error_texts {| file_name := js "local.pdf" |}
                sample_world 200 (js "<html>") None JNull) as B.
  pose proof (@upload_error_texts {| file_name := js "local.pdf" |}
                sample_world 200 [] None
                (JObj [(js "file", JObj [(js "id", JStr [])]);
                       (js "docId", JStr (js "d1"))])) as C.
  cbv zeta in A, B, C.
  split; [exact (proj1 A eq_refl)|].
  split; [exact (proj1 (proj2 (proj2 B)) eq_refl)|].
  exact (proj2 (proj2 (proj2 C)) eq_refl eq_refl).
Defined.

End HandlerFacts.

(* ================================================================= *)
(** ** Invariants of the page *)

Module InvariantFacts.
Import ChatPage Wording Invariants ChatPageFacts.
Local Open Scope cmd_scope.

Lemma maintains_skip J : maintains J skip.
Proof. intros w H. exact H. Qed.

Lemma maintains_seq J a b :
  maintains J a -> maintains J b -> maintains J (a ;; b).
Proof. intros A B w H. apply B, A, H. Qed.

Lemma maintains_when J shown c : maintains J c -> maintains J (when shown c).
Proof. destruct shown; simpl; auto using maintains_skip. Qed.

Lemma maintains_run J :
  (forall e r, maintains J (dispatch e r)) ->
  forall events, maintains J (run events).
Proof.
  intros D events. induction events as [|e events IH]; intros w H.
  - exact H.
  - rewrite run_cons. apply IH. apply D, H.
Qed.

(** Case distinctions of a handler, each kept as an equation. *)
Ltac cases_eq :=
  cbv zeta;
  repeat match goal with
         | |- context [match ?x with _ => _ end] => destruct x eqn:?
         end.

Ltac unfold_handlers :=
  unfold handleSendMessage_settled, handleSendMessage, handleAskAgoraLearn,
    handleFileInputChange, handleFileSelect, handleUpload, upload_onprogress,
    handleUpload_settled, handleUpload_catch, handleUpload_finally,
    handleVoiceInput, handleVoiceInput_granted, handleVoiceInput_denied,
    stop_after_timeout, onstop, onstop_settled, onstop_catch,
    exportConversation, conversationId_effect, sendQuery_settled,
    sendQuery_catch, sendQuery, pushMessage, new_recorder, start_recorder,
    stop_recorder_now.

(** What a command reads from the refs, case by case. *)
Ltac read_refs :=
  unfold reading, seq; cbv beta;
  repeat match goal with
         | |- context [match mediaRecorderRef ?x with _ => _ end] =>
             destruct (mediaRecorderRef x)
         | |- context [match nth_error ?l ?n with _ => _ end] =>
             destruct (nth_error l n) as [[]|]
         end.

(** Splits a handler into the setter and platform calls it is made of. *)
Ltac split_handler :=
  cases_eq;
  repeat match goal with
         | |- maintains _ (seq _ _) => apply maintains_seq
         | |- maintains _ (when _ _) => apply maintains_when
         | |- maintains _ skip => apply maintains_skip
         end.

(** *** The active document *)

Lemma document_identified_dispatch e r :
  maintains document_identified (dispatch e r).
Proof.
  destruct e; unfold dispatch; unfold_handlers;
    unfold handleMouseUp, ondataavailable;
    split_handler;
    intros w H; unfold document_identified, reading in *;
    read_refs;
    cbn -[truthy]; first [exact H | exact I | assumption].
Qed.

(** X13: in every state the page can reach, the active document, if
    there is one, has a truthy identifier; so the [docId] a query of that
    render carries is never empty, zero, false or null. *)
Theorem active_document_is_identified ls now events queryText :
  let w := run events (initial_world ls now) in
  document_identified w
  /\ match lookup (js "docId") (converse_payload (state w) queryText) with
     | Some v => truthy (Some v) = true
     | None => uploadedDoc (state w) = None
     end.
Proof.
  intros w.
  assert (D : document_identified w).
  { apply maintains_run; [apply document_identified_dispatch|]. exact I. }
  split; [exact D|].
  unfold document_identified in D. unfold converse_payload.
  destruct (uploadedDoc (state w)) as [d|]; simpl; [exact D|].
  destruct (blank (conversationId (state w)));
    [reflexivity|]. destruct (conversationId (state w)); reflexivity.
Qed.

(** *** The audio buffer *)

Lemma chunks_not_empty_dispatch e r :
  maintains chunks_not_empty (dispatch e r).
Proof.
  destruct e; unfold dispatch; unfold_handlers;
    unfold handleMouseUp, ondataavailable;
    split_handler;
    intros w H; unfold chunks_not_empty, reading in *;
    read_refs;
    cbn; try exact H; try constructor.
  apply Forall_app. split; [exact H|].
  constructor; [now apply Nat.ltb_lt | constructor].
Qed.

(** X14: in every state the page can reach, the audio buffer holds only
    chunks that are not empty: a recording starts with an empty buffer
    and an empty chunk is never added. *)
Theorem audio_buffer_has_no_empty_chunk ls now events :
  chunks_not_empty (run events (initial_world ls now)).
Proof.
  apply maintains_run; [apply chunks_not_empty_dispatch|]. constructor.
Qed.

(** *** The selection popup *)

Lemma selection_consistent_handleMouseUp selection b l y x :
  maintains selection_consistent (handleMouseUp selection b l y x).
Proof.
  intros w _. unfold handleMouseUp, selection_consistent.
  destruct selection as [text|]; [destruct (trim text) eqn:T|];
    cbn -[trim]; try exact I. rewrite T. discriminate.
Qed.

Lemma selection_consistent_dispatch e r :
  maintains selection_consistent (dispatch e r).
Proof.
  destruct e; unfold dispatch;
    try apply selection_consistent_handleMouseUp;
    unfold_handlers; unfold ondataavailable;
    split_handler;
    intros w H; unfold selection_consistent, reading in *;
    read_refs;
    cbn -[trim]; exact H.
Qed.

(** X15: in every state the page can reach, the selection popup has a
    position exactly when a text is selected, and a selected text is
    never blank; so the Ask button, whenever it is shown, sends the
    selected text as a query. *)
Theorem ask_sends_the_selection ls now events random now' :
  let w := run events (initial_world ls now) in
  selection_consistent w
  /\ match selectedText (state w) with
     | Some text =>
         trace (step (ev_ask random now') w)
         = trace w
           ++ [Set_ (setReferencePopup false);
               Set_ (setIsLoading true); Set_ (setError None);
               Set_ (setMessages_push (user_message text random now'));
               Call_ (fetch converse_url
                        (json_body
                           (JObj (converse_payload (state w) text))))]
     | None => step (ev_ask random now') w = w
     end.
Proof.
  intros w.
  assert (C : selection_consistent w).
  { apply maintains_run; [apply selection_consistent_dispatch|]. exact I. }
  split; [exact C|].
  unfold selection_consistent in C. unfold step, dispatch.
  destruct (selectedText (state w)) as [text|] eqn:S;
    [|now destruct (popupPosition (state w))].
  destruct (popupPosition (state w)) as [pos|]; [|contradiction].
  assert (N : text <> []) by (intros ->; now apply C).
  destruct text as [|c t]; [congruence|].
  unfold handleAskAgoraLearn. rewrite S. simpl when.
  unfold seq at 1. rewrite sendQuery_not_blank by assumption.
  unfold seq, pushMessage, set, call. simpl.
  now rewrite <- !app_assoc.
Qed.

(** *** The message log *)

Lemma log_well_formed_dispatch now e r :
  maintains (log_well_formed now) (dispatch e r).
Proof.
  destruct e; unfold dispatch; unfold_handlers;
    unfold handleMouseUp, ondataavailable;
    split_handler;
    intros w H; unfold log_well_formed, reading in *;
    read_refs;
    cbn -[welcome]; try exact H;
    destruct H as (rest & E & F); rewrite E;
    eexists; (split; [apply app_comm_cons|]);
    (apply Forall_app; split; [exact F|]);
    (constructor; [|constructor]);
    unfold pushed_message; cbn; split; first [reflexivity | discriminate].
Qed.

(** X16: in every state the page can reach, the log is the welcome
    message followed by messages the handlers pushed: a user message has
    an identifier made with [u-] and a timestamp, an assistant message an
    identifier made with [a-] and no timestamp. *)
Theorem message_log_is_well_formed ls now events :
  log_well_formed now (run events (initial_world ls now)).
Proof.
  apply maintains_run; [apply log_well_formed_dispatch|].
  exists []. split; [reflexivity | constructor].
Qed.

(** *** The conversation identifier, whatever the storage *)

Lemma load_sets_identifier ls random now :
  exists id,
    conversationId (state (load ls random now)) = Some id /\ id <> [].
Proof.
  unfold load, step, dispatch, conversationId_effect.
  change (state (initial_world ls now)) with (initial_state ls now).
  destruct (conversationId (initial_state ls now)) as [[|c t]|] eqn:C;
    simpl.
  - eexists. split; [reflexivity | discriminate].
  - exists (c :: t). split; [exact C | discriminate].
  - eexists. split; [reflexivity | discriminate].
Qed.

(** X17: whatever the storage holds or refuses, a loaded page has an
    identifier that is not empty, no later event changes it or the
    storage, and every query of the current render carries it. *)
Theorem identifier_is_always_set ls random now events queryText :
  let w0 := load ls random now in
  let w := run events w0 in
  blank (conversationId (state w)) = false
  /\ conversationId (state w) = conversationId (state w0)
  /\ localStorage w = localStorage w0
  /\ lookup (js "conversationId") (converse_payload (state w) queryText)
     = option_map JStr (conversationId (state w0)).
Proof.
  intros w0 w.
  destruct (load_sets_identifier ls random now) as (id & C & N).
  destruct (@keeps_run events w0 id C N) as [K1 K2]. fold w in K1, K2.
  assert (B : blank (conversationId (state w)) = false)
    by (rewrite K1; destruct id; [congruence | reflexivity]).
  split; [exact B|]. split; [fold w0 in C; congruence|].
  split; [exact K2|].
  unfold converse_payload. rewrite B. fold w0 in C. rewrite K1, C.
  destruct (uploadedDoc (state w)); reflexivity.
Qed.

(** X18: an unreadable storage, no stored value and an empty stored
    value all count as no identifier: loading generates one with the
    [conv-] prefix and tries to store it.  When the storage cannot be
    written it stays as it was, and the next load generates another
    identifier. *)
Theorem load_without_stored_identifier ls random now random' now' :
  blank (match getItem ls with Some v => v | None => None end) = true ->
  let w := load ls random now in
  conversationId (state w) = Some (makeId (js "conv-") random)
  /\ localStorage w = setItem ls (makeId (js "conv-") random)
  /\ (writable ls = false ->
      localStorage w = ls
      /\ conversationId (state (load (localStorage w) random' now'))
         = Some (makeId (js "conv-") random')).
Proof.
  intros B w.
  assert (L : forall x n, load ls x n
                          = (set (setConversationId
                                    (Some (makeId (js "conv-") x))) ;;
                             localStorage_set (makeId (js "conv-") x))
                              (initial_world ls n)).
  { intros x n. unfold load, step, dispatch, conversationId_effect.
    change (conversationId (state (initial_world ls n)))
      with (match getItem ls with Some v => v | None => None end).
    now rewrite B. }
  subst w. rewrite L. split; [reflexivity|]. split; [reflexivity|].
  intros W.
  assert (E : localStorage
                ((set (setConversationId (Some (makeId (js "conv-") random))) ;;
                  localStorage_set (makeId (js "conv-") random))
                   (initial_world ls now)) = ls).
  { unfold seq, set, localStorage_set, setItem. simpl. now rewrite W. }
  split; [exact E|]. rewrite E, L. reflexivity.
Qed.

Lemma load_without_stored_identifier_witness :
  let ls := {| readable := true; writable := false; item := Some [] |} in
  blank (match getItem ls with Some v => v | None => None end) = true
  /\ conversationId (state (load ls (js "r1") (js "t1")))
     = Some (js "conv-r1")
  /\ conversationId
       (state (load (localStorage (load ls (js "r1") (js "t1")))
                 (js "r2") (js "t2")))
     = Some (js "conv-r2").
Proof.
  intros ls. split; [reflexivity|].
  pose proof (@load_without_stored_identifier ls (js "r1") (js "t1")
                (js "r2") (js "t2") eq_refl) as T.
  cbv zeta in T. destruct T as (T1 & _ & T2).
  split; [exact T1|]. exact (proj2 (T2 eq_refl)).
Defined.

(** *** The transcription step *)

(** X19: however the transcription request ends, [onstop] adds exactly
    one message to the log: the user's question when a transcript was
    heard, and otherwise an assistant notice, the failure text when the
    request failed or its body could not be read.  A failure here is
    never recorded as an error of the page, and sends nothing. *)
Theorem transcription_adds_one_message r o random now w :
  let w' := onstop_settled r o random now w in
  (exists m,
     messages (state w') = messages (state w) ++ [m]
     /\ id m = makeId (match role m with
                       | user => js "u-"
                       | assistant => js "a-"
                       end) random)
  /\ (answered o = None ->
      messages (state w')
      = messages (state w) ++ [assistant_message voice_failed random]
      /\ error (state w') = error (state w)
      /\ trace w'
         = trace w
           ++ [Call_ console_error;
               Set_ (setMessages_push
                       (assistant_message voice_failed random))]).
Proof.
  cbv zeta. unfold onstop_settled, answered.
  assert (F : exists m,
             messages (state (onstop_catch random w))
             = messages (state w) ++ [m]
             /\ id m = makeId (match role m with
                               | user => js "u-"
                               | assistant => js "a-"
                               end) random)
    by (eexists; split; reflexivity).
  assert (G : messages (state (onstop_catch random w))
              = messages (state w) ++ [assistant_message voice_failed random]
              /\ error (state (onstop_catch random w)) = error (state w)
              /\ trace (onstop_catch random w)
                 = trace w
                   ++ [Call_ console_error;
                       Set_ (setMessages_push
                               (assistant_message voice_failed random))]).
  { unfold onstop_catch, seq, pushMessage, set, call. simpl.
    repeat split. now rewrite <- app_assoc. }
  destruct o as [err|status [err|j]]; try destruct (ok status); simpl negb;
    cbv iota; try (split; [exact F | intros _; exact G]).
  split; [|discriminate].
  destruct (voice_question j) as [[| | |q| |]|];
    try (eexists; split; reflexivity).
  destruct (trim q) as [|c t] eqn:T; [eexists; split; reflexivity|].
  rewrite sendQuery_not_blank by (rewrite T; discriminate).
  eexists. split; reflexivity.
Qed.

Lemma transcription_adds_one_message_witness :
  answered (fetch_response 502 (inr JNull)) = None
  /\ messages
       (state (onstop_settled (state sample_world)
                 (fetch_response 502 (inr JNull)) (js "r1") (js "t1")
                 sample_world))
     = [welcome (js "2024-01-01T00:00:00.000Z");
        assistant_message voice_failed (js "r1")].
Proof.
  split; [reflexivity|].
  exact (proj1 (proj2 (@transcription_adds_one_message (state sample_world)
                         (fetch_response 502 (inr JNull)) (js "r1")
                         (js "t1") sample_world) eq_refl)).
Defined.

(** *** Export *)

(** X20: on a loaded page the exported file is always named after the
    conversation identifier (the [local] name is never used), it holds
    the log, the active document and the identifier of the current
    render, and exporting changes nothing of the component; an export
    that fails records the error and downloads nothing. *)
Theorem export_names_the_conversation ls random now events now' :
  let w := run events (load ls random now) in
  exists id,
    conversationId (state w) = Some id
    /\ step (ev_export now' true) w
       = call (download (js "conversation-" ++ id ++ js ".json")
                 {| export_conversationId := Some id;
                    export_messages := messages (state w);
                    export_uploadedDoc := uploadedDoc (state w);
                    exportedAt := now' |}) w
    /\ state (step (ev_export now' true) w) = state w
    /\ trace (step (ev_export now' false) w)
       = trace w
         ++ [Call_ console_error; Set_ (setError (Some (js "Export failed")))]
    /\ messages (state (step (ev_export now' false) w))
       = messages (state w).
Proof.
  intros w.
  destruct (load_sets_identifier ls random now) as (id & C & N).
  destruct (@keeps_run events (load ls random now) id C N) as [K _].
  fold w in K. exists id. split; [exact K|].
  unfold step, dispatch, exportConversation. rewrite K.
  split; [reflexivity|]. split; [reflexivity|].
  split; [|reflexivity].
  unfold seq, set, call. simpl. now rewrite <- app_assoc.
Qed.

(** *** A recording, from start to stop *)

Lemma data_events blobs : forall w,
  let w' := run (map ev_recorder_data blobs) w in
  state w' = state w
  /\ mediaRecorderRef w' = mediaRecorderRef w
  /\ recorders w' = recorders w
  /\ localStorage w' = localStorage w
  /\ trace w' = trace w
  /\ audioChunksRef w'
     = audioChunksRef w ++ filter (fun b => 0 <? size b) blobs.
Proof.
  induction blobs as [|b blobs IH]; intros w; cbv zeta.
  - simpl. now rewrite app_nil_r.
  - simpl map. rewrite run_cons.
    destruct (IH (step (ev_recorder_data b) w))
      as (S1 & S2 & S3 & S4 & S5 & S6).
    rewrite S1, S2, S3, S4, S5, S6.
    unfold step, dispatch, ondataavailable. simpl filter.
    destruct (0 <? size b); simpl; repeat split.
    now rewrite <- app_assoc.
Qed.

Lemma list_sum_not_empty blobs :
  list_sum (map size (filter (fun b => 0 <? size b) blobs))
  = list_sum (map size blobs).
Proof.
  induction blobs as [|b blobs IH]; [reflexivity|]. simpl.
  destruct (Nat.ltb_spec 0 (size b)); simpl; lia.
Qed.

Lemma replace_nth_last (A : Type) (l : list A) x y :
  replace_nth (length l) x (l ++ [y]) = l ++ [x].
Proof. induction l as [|h l IH]; simpl; [reflexivity | now rewrite IH]. Qed.

Lemma nth_error_last (A : Type) (l : list A) x :
  nth_error (l ++ [x]) (length l) = Some x.
Proof. induction l as [|h l IH]; simpl; [reflexivity | exact IH]. Qed.

(** X21: a recording from start to stop, on a page that is not
    recording.  The page asks for the microphone, creates and starts a
    recorder with its 25 second timer and buffers the chunks that arrive,
    before the second press or, as a recorder started without a time
    slice delivers them, after it and before [onstop].  The second press
    stops that recorder; [onstop] turns the recording flag off and sends
    one request whose audio is everything delivered since the start,
    with the document of the render of the first press, to which its
    closure belongs; when [String] throws on that document's identifier
    nothing is sent.  The log is not touched. *)
Theorem recording_session w before_stop after_stop :
  isRecording (state w) = false ->
  let mr := length (recorders w) in
  let w' := run ([ev_voice; ev_mic_granted]
                 ++ map ev_recorder_data before_stop
                 ++ [ev_voice]
                 ++ map ev_recorder_data after_stop
                 ++ [ev_recorder_stopped (state w)]) w in
  let audio :=
    [(js "audio",
      form_blob
        {| size := list_sum (map size (before_stop ++ after_stop)) |}
        (js "audio.webm"))] in
  isRecording (state w') = false
  /\ mediaRecorderRef w' = Some mr
  /\ nth_error (recorders w') mr = Some inactive
  /\ messages (state w') = messages (state w)
  /\ trace w'
     = trace w
       ++ [Set_ (setIsRecording true); Call_ getUserMedia;
           Call_ (recorder_start mr);
           Call_ (setTimeout (stop_recorder mr) 25000%N);
           Call_ (recorder_stop mr); Set_ (setIsRecording false)]
       ++ match uploadedDoc (state w) with
          | Some d =>
              match to_String (doc_id d) with
              | Some text =>
                  [Call_ (fetch voice_url
                            (form_body
                               (audio ++ [(js "docId", form_text text)])))]
              | None => []
              end
          | None => [Call_ (fetch voice_url (form_body audio))]
          end.
Proof.
  intros R mr w' audio. subst w'. rewrite !run_app.
  set (w1 := run [ev_voice; ev_mic_granted] w).
  assert (W1 : state w1 = apply_update (setIsRecording true) (state w)
               /\ mediaRecorderRef w1 = Some mr
               /\ recorders w1 = recorders w ++ [recording]
               /\ audioChunksRef w1 = []
               /\ trace w1
                  = trace w
                    ++ [Set_ (setIsRecording true); Call_ getUserMedia;
                        Call_ (recorder_start mr);
                        Call_ (setTimeout (stop_recorder mr) 25000%N)]).
  { subst w1. cbv [run fold_left step dispatch].
    unfold handleVoiceInput. rewrite R. cbn [negb].
    unfold handleVoiceInput_granted, new_recorder, start_recorder,
      reading, seq, set, call, set_audioChunksRef, set_mediaRecorderRef,
      set_recorders. simpl.
    rewrite replace_nth_last, <- !app_assoc. repeat split. }
  destruct W1 as (A1 & A2 & A3 & A4 & A5).
  destruct (data_events before_stop w1) as (S1 & S2 & S3 & _ & S5 & S6).
  set (w2 := run (map ev_recorder_data before_stop) w1) in *.
  set (w3 := run [ev_voice] w2).
  assert (W3 : state w3 = state w2
               /\ mediaRecorderRef w3 = Some mr
               /\ recorders w3 = recorders w ++ [inactive]
               /\ audioChunksRef w3 = audioChunksRef w2
               /\ trace w3 = trace w2 ++ [Call_ (recorder_stop mr)]).
  { assert (I2 : isRecording (state w2) = true)
      by (rewrite S1, A1; reflexivity).
    assert (M2 : mediaRecorderRef w2 = Some mr) by congruence.
    assert (R2 : recorders w2 = recorders w ++ [recording]) by congruence.
    subst w3. cbv [run fold_left step dispatch].
    unfold handleVoiceInput. rewrite I2. cbn [negb].
    unfold reading. cbv beta. rewrite M2. cbv iota.
    unfold stop_recorder_now, reading, seq, call, set_recorders.
    cbn [state mediaRecorderRef recorders audioChunksRef trace].
    rewrite M2, R2. subst mr. rewrite replace_nth_last. repeat split. }
  destruct W3 as (B1 & B2 & B3 & B4 & B5).
  destruct (data_events after_stop w3) as (T1 & T2 & T3 & _ & T5 & T6).
  set (w4 := run (map ev_recorder_data after_stop) w3) in *.
  assert (C4 : audioChunksRef w4
               = filter (fun b => 0 <? size b) (before_stop ++ after_stop))
    by (rewrite T6, B4, S6, A4, filter_app; reflexivity).
  assert (Tr : trace w4
               = trace w
                 ++ [Set_ (setIsRecording true); Call_ getUserMedia;
                     Call_ (recorder_start mr);
                     Call_ (setTimeout (stop_recorder mr) 25000%N);
                     Call_ (recorder_stop mr)])
    by (rewrite T5, B5, S5, A5, <- app_assoc; reflexivity).
  assert (M4 : messages (state w4) = messages (state w))
    by (rewrite T1, B1, S1, A1; reflexivity).
  subst audio.
  cbv [run fold_left step dispatch]. unfold onstop, reading, seq, set.
  cbv beta zeta. cbn [audioChunksRef]. rewrite C4, list_sum_not_empty.
  destruct (uploadedDoc (state w)) as [d|];
    [destruct (to_String (doc_id d)) as [text|]|];
    unfold call, skip;
    cbn [state mediaRecorderRef recorders trace isRecording messages
         apply_update];
    rewrite ?T2, ?B2, ?T3, ?B3, ?Tr, ?M4; subst mr;
    rewrite ?nth_error_last;
    repeat split; rewrite <- ?app_assoc; reflexivity.
Qed.

Lemma recording_session_witness :
  isRecording (state sample_with_document) = false
  /\ nth_error
       (recorders
          (run ([ev_voice; ev_mic_granted]
                ++ map ev_recorder_data [{| size := 3 |}; {| size := 0 |}]
                ++ [ev_voice]
                ++ map ev_recorder_data [{| size := 4 |}]
                ++ [ev_recorder_stopped (state sample_with_document)])
             sample_with_document)) 0 = Some inactive
  /\ trace
       (run ([ev_voice; ev_mic_granted]
             ++ map ev_recorder_data [{| size := 3 |}; {| size := 0 |}]
             ++ [ev_voice]
             ++ map ev_recorder_data [{| size := 4 |}]
             ++ [ev_recorder_stopped (state sample_with_document)])
          sample_with_document)
     = trace sample_with_document
       ++ [Set_ (setIsRecording true); Call_ getUserMedia;
           Call_ (recorder_start 0);
           Call_ (setTimeout (stop_recorder 0) 25000%N);
           Call_ (recorder_stop 0); Set_ (setIsRecording false);
           Call_ (fetch voice_url
                    (form_body
                       [(js "audio",
                         form_blob {| size := 7 |} (js "audio.webm"));
                        (js "docId", form_text (js "d0"))]))].
Proof.
  split; [reflexivity|].
  pose proof (@recording_session sample_with_document
                [{| size := 3 |}; {| size := 0 |}] [{| size := 4 |}]
                eq_refl) as T.
  cbv zeta in T. destruct T as (_ & _ & T1 & _ & T2).
  split; [exact T1 | exact T2].
Defined.

(** *** The reference popup *)

Lemma reference_unused_dispatch e r :
  referencePopup r = false -> maintains reference_unused (dispatch e r).
Proof.
  intros B. destruct e; unfold dispatch; try (rewrite B; cbn [when]);
    unfold_handlers;
    unfold handleMouseUp, ondataavailable;
    split_handler;
    intros w H; unfold reference_unused, reading in *;
    read_refs;
    cbn; first [exact H | split; [reflexivity | apply H]].
Qed.

Lemma reference_unused_run events : maintains reference_unused (run events).
Proof.
  induction events as [|e events IH]; intros w H; [exact H|].
  rewrite run_cons. apply IH. unfold step.
  apply reference_unused_dispatch; [apply H | exact H].
Qed.

(** X22: no handler ever opens the reference popup: in every state the
    page can reach it is closed and its text is empty, so its text area
    and its two buttons never act, and the input is never seeded with a
    quoted reference. *)
Theorem reference_popup_never_opens ls now events v :
  let w := run events (initial_world ls now) in
  referencePopup (state w) = false
  /\ referenceText (state w) = []
  /\ step (ev_reference_text v) w = w
  /\ step ev_reference_use w = w
  /\ step ev_reference_cancel w = w.
Proof.
  intros w.
  assert (U : reference_unused w)
    by (apply reference_unused_run; split; reflexivity).
  destruct U as [P T]. split; [exact P|]. split; [exact T|].
  unfold step, dispatch. rewrite P. repeat split.
Qed.

(** *** Pressing Upload twice *)

(** X23: a second press on Upload before the first has settled is
    ignored: the uploading flag set by the first disables the button. *)
Theorem second_upload_is_ignored w :
  step ev_upload (step ev_upload w) = step ev_upload w.
Proof.
  unfold step at 2 3. unfold dispatch.
  destruct (showUploadModal (state w) && negb (isUploading (state w)))
    eqn:G; simpl when.
  - unfold handleUpload. destruct (uploadedFile (state w)) as [file|] eqn:F.
    + unfold step, dispatch, seq, set, call. simpl.
      now rewrite andb_false_r.
    + unfold skip, step, dispatch, handleUpload. rewrite G, F. reflexivity.
  - unfold skip, step, dispatch. now rewrite G.
Qed.

End InvariantFacts.
